(** * Backend selection of the readwritesplit router

    A shallow embedding of
    [server/modules/routing/readwritesplit/rwsplit_select_backends.cc]:
    the scoring functions, the adaptive roulette, the priority buckets of
    [find_best_backend] and the session bring-up
    [RWSplit::select_connect_backend_servers], followed by the properties
    the specification states about them.

    Conventions.
    - A C++ [double] is an IEEE 754 binary64 value, modelled by the
      standard library's [spec_float] at precision 53 and maximal exponent
      1024; every operation rounds to nearest, ties to even.
    - A C++ [int] is a [Z] in the range of 32 bits; additions wrap
      ([int_add]).
    - A [RWBackend*] is an address ([BackendId]); the objects live in a
      heap that maps addresses to their state, so the vectors [backends]
      and [candidates] alias the same objects.
    - An iterator into a vector is its offset from [begin()]; [end()] is
      the length of the vector. *)

From Stdlib Require Import ZArith Lia Bool List.
From Stdlib Require Import Floats.SpecFloat.
From stdpp Require Import base option list gmap.

Local Open Scope Z_scope.

(* ================================================================== *)
(** * Machine arithmetic *)
(* ================================================================== *)

(** ** 32-bit [int] *)

Definition INT_MAX : Z := 2147483647.
Definition INT_MIN : Z := -2147483648.

Definition int_wrap (z : Z) : Z := (z + 2147483648) mod 4294967296 - 2147483648.

Definition int_add (a b : Z) : Z := int_wrap (a + b).

(** ** binary64 [double] *)

Module Double.

Definition double := spec_float.

Definition prec : Z := 53.
Definition emax : Z := 1024.

Definition add : double -> double -> double := SFadd prec emax.
Definition mul : double -> double -> double := SFmul prec emax.
Definition div : double -> double -> double := SFdiv prec emax.

(** [a < b] and [a == b] on doubles; both are false when an operand is
    a NaN. *)
Definition ltb : double -> double -> bool := SFltb.
Definition leb : double -> double -> bool := SFleb.
Definition eqb : double -> double -> bool := SFeqb.

(** Conversion of an [int] (exact: 32 bits fit in the mantissa). *)
Definition of_int (z : Z) : double := binary_normalize prec emax z 0 false.

Definition zero : double := S754_zero false.
Definition pinf : double := S754_infinity false.

(** [std::numeric_limits<double>::max()], the largest finite double. *)
Definition DBL_MAX : double := S754_finite false 9007199254740991 971.

(** The literals [5.0] and [1.5]. *)
Definition five : double := of_int 5.
Definition one_and_half : double := binary_normalize prec emax 3 (-1) false.

(** Contextual conversion to [bool]: [x != 0]. *)
Definition to_bool (x : double) : bool := negb (eqb x zero).

(** [std::max (a, b)] is [(a < b) ? b : a]. *)
Definition max (a b : double) : double := if ltb a b then b else a.

End Double.

Import Double.

(* ================================================================== *)
(** * Data model *)
(* ================================================================== *)

(** Modelled from the spec: the declarations of [SERVER], [SERVER_REF]
    and [RWBackend] are in headers that are not part of this source.  The
    records hold the fields the selection code reads, with the types of
    the specification's data model: the counters and [rlag] are [int]s,
    [server_weight] and the response time average are [double]s, the
    predicates of a backend are booleans. *)

Record SERVER_STATS := {
  n_current : Z;        (* int: current connections of the whole process *)
  n_current_ops : Z     (* int: operations in flight *)
}.

Record SERVER := {
  stats : SERVER_STATS;
  rlag : Z;                          (* int: replication lag in seconds *)
  response_time_average : double
}.

Record SERVER_REF := {
  server : SERVER;
  server_weight : double;
  connections : Z                    (* int: connections of this router *)
}.

(** A [RWBackend*]. *)
Definition BackendId := nat.

Record RWBackend := {
  backend : SERVER_REF;
  is_master : bool;
  is_slave : bool;
  is_relay : bool;
  in_use : bool;
  has_session_commands : bool;
  can_connect : bool
}.

(** [PRWBackends] is [std::vector<RWBackend*>]. *)
Abbreviation PRWBackends := (list BackendId).

(** The backend objects, by address. *)
Definition Heap := BackendId -> RWBackend.

Definition SessionCommand := nat.
Definition SessionCommandList := list SessionCommand.

Inductive select_criteria_t :=
  | LEAST_GLOBAL_CONNECTIONS
  | LEAST_ROUTER_CONNECTIONS
  | LEAST_BEHIND_MASTER
  | LEAST_CURRENT_OPERATIONS
  | ADAPTIVE_ROUTING.

Inductive failure_mode :=
  | RW_FAIL_INSTANTLY
  | RW_FAIL_ON_WRITE
  | RW_ERROR_ON_WRITE.

Inductive connection_type := ALL | SLAVE.

Global Instance failure_mode_eq_dec : EqDecision failure_mode.
Proof. solve_decision. Defined.

Global Instance connection_type_eq_dec : EqDecision connection_type.
Proof. solve_decision. Defined.

Record Config := {
  slave_selection_criteria : select_criteria_t;
  master_failure_mode : failure_mode;
  master_accepts_reads : bool
}.

(** The router as [select_connect_backend_servers] sees it: its
    configuration, and the value of [max_slave_count()], an [int] whose
    computation lies outside this file's source. *)
Record RWSplit := {
  config : Config;
  max_slave_count : Z
}.

(* ================================================================== *)
(** * State and effects *)
(* ================================================================== *)

(** One invocation of [RWBackend::connect]: the backend, the
    session-command list passed with it ([None] for the one-argument call
    and for a null pointer), whether it was made for a slave candidate,
    and its result. *)
Record ConnectCall := {
  cc_backend : BackendId;
  cc_sescmd : option SessionCommandList;
  cc_slave : bool;
  cc_ok : bool
}.

(** What the code reads and changes besides its arguments: the backend
    objects, the number of values drawn so far from the worker's random
    engine, and the calls of [connect] made so far, oldest first. *)
Record World := {
  heap : Heap;
  draws : nat;
  connect_log : list ConnectCall
}.

Inductive Error :=
  | UndefinedBehaviour   (* an iterator equal to [end()] was dereferenced *)
  | OutOfFuel.           (* a loop was cut before it ended *)

Inductive result (A : Type) :=
  | Ok (a : A)
  | Err (e : Error).
Arguments Ok {A} a.
Arguments Err {A} e.

(** State passing with errors. *)
Definition M (A : Type) : Type := World -> result (A * World).

Definition ret {A} (a : A) : M A := fun w => Ok (a, w).

Definition bind {A B} (c : M A) (k : A -> M B) : M B :=
  fun w => match c w with
           | Ok (a, w') => k a w'
           | Err e => Err e
           end.

Definition fail {A} (e : Error) : M A := fun _ => Err e.

Definition get_heap : M Heap := fun w => Ok (heap w, w).

Notation "'let*' x := c 'in' k" := (bind c (fun x => k))
  (at level 10, x name, c at level 100, k at level 200).

(** [BackendSelectFunction]: from a vector to an iterator into it. *)
Definition BackendSelectFunction := PRWBackends -> M nat.

(* ================================================================== *)
(** * The selection functions *)
(* ================================================================== *)

(** [valid_for_slave]: [(is_slave || is_relay) && (!master || backend != master)]. *)
Definition valid_for_slave (h : Heap) (b : BackendId) (master : option BackendId) : bool :=
  (is_slave (h b) || is_relay (h b))
  && match master with
     | None => true
     | Some m => negb (Nat.eqb b m)
     end.

(** ** [best_score] *)

(** The score that takes part in the comparison: inflated for a backend
    that is not in use. *)
Definition compared_score (h : Heap) (server_score : SERVER_REF -> double)
    (b : BackendId) : double :=
  let score := server_score (backend (h b)) in
  if negb (in_use (h b)) then mul (add score five) one_and_half else score.

(** The loop of [best_score], from position [ite] on, with the current
    [min] and [best]. *)
Fixpoint best_score_loop (h : Heap) (server_score : SERVER_REF -> double)
    (rest : PRWBackends) (ite : nat) (min : double) (best : nat) : nat :=
  match rest with
  | [] => best
  | b :: rest' =>
      let score := compared_score h server_score b in
      if ltb score min   (* min > score *)
      then best_score_loop h server_score rest' (S ite) score ite
      else best_score_loop h server_score rest' (S ite) min best
  end.

Definition best_score (h : Heap) (sBackends : PRWBackends)
    (server_score : SERVER_REF -> double) : nat :=
  best_score_loop h server_score sBackends 0 DBL_MAX (length sBackends).

(** ** The four scores *)

Definition score_router_conn (s : SERVER_REF) : double :=
  if to_bool (server_weight s)
  then div (of_int (int_add (connections s) 1)) (server_weight s)
  else DBL_MAX.

Definition score_global_conn (s : SERVER_REF) : double :=
  if to_bool (server_weight s)
  then div (of_int (int_add (n_current (stats (server s))) 1)) (server_weight s)
  else DBL_MAX.

Definition score_behind_master (s : SERVER_REF) : double :=
  if to_bool (server_weight s)
  then div (of_int (rlag (server s))) (server_weight s)
  else DBL_MAX.

Definition score_current_load (s : SERVER_REF) : double :=
  if to_bool (server_weight s)
  then div (of_int (int_add (n_current_ops (stats (server s))) 1)) (server_weight s)
  else DBL_MAX.

Definition backend_cmp_router_conn : BackendSelectFunction :=
  fun sBackends => let* h := get_heap in ret (best_score h sBackends score_router_conn).

Definition backend_cmp_global_conn : BackendSelectFunction :=
  fun sBackends => let* h := get_heap in ret (best_score h sBackends score_global_conn).

Definition backend_cmp_behind_master : BackendSelectFunction :=
  fun sBackends => let* h := get_heap in ret (best_score h sBackends score_behind_master).

Definition backend_cmp_current_load : BackendSelectFunction :=
  fun sBackends => let* h := get_heap in ret (best_score h sBackends score_current_load).

(** ** The adaptive roulette *)

(** [very_quick = 1.0 / 10000000]. *)
Definition very_quick : double := div (of_int 1) (of_int 10000000).

(** First loop: the cube of the inverse of the average. *)
Definition inverse_cubed (ave : double) : double :=
  let slot := if eqb ave zero
              then div (of_int 1) very_quick
              else div (of_int 1) ave in
  mul (mul slot slot) slot.

(** A running sum, as [x += slot[i]] over the array from left to right. *)
Definition sum_from (acc : double) (slot : list double) : double :=
  fold_left add slot acc.

Definition divisor : Z := 197.

(** The array [slot] after the three loops. *)
Definition roulette_slots (aves : list double) : list double :=
  let slot1 := map inverse_cubed aves in
  let pre_total := sum_from zero slot1 in
  let slot2 := map (fun s => max s (div pre_total (of_int divisor))) slot1 in
  let total := sum_from zero slot2 in
  map (fun s => div s total) slot2.

(** The last loop: [winner] advances while the ball is not below the
    running sum. *)
Fixpoint roll (ball : double) (slot : list double) (slot_walk : double)
    (winner : nat) : nat :=
  match slot with
  | [] => winner
  | s :: slot' =>
      let slot_walk := add slot_walk s in
      if ltb ball slot_walk then winner
      else roll ball slot' slot_walk (S winner)
  end.

Definition response_averages (h : Heap) (sBackends : PRWBackends) : list double :=
  map (fun b => response_time_average (server (backend (h b)))) sBackends.

(** The function but for the draw: the winner for a given ball. *)
Definition roulette_winner (h : Heap) (sBackends : PRWBackends) (ball : double) : nat :=
  roll ball (roulette_slots (response_averages h sBackends)) zero 0.

Section Selection.

(** The worker's random engine: [zero_to_one_exclusive k] is the value
    of the [k]-th call of [random_engine().zero_to_one_exclusive()]. *)
Variable zero_to_one_exclusive : nat -> double.

Definition draw : M double :=
  fun w => Ok (zero_to_one_exclusive (draws w),
               {| heap := heap w; draws := S (draws w);
                  connect_log := connect_log w |}).

Definition backend_cmp_response_time : BackendSelectFunction :=
  fun sBackends =>
    let* h := get_heap in
    let* ball := draw in
    ret (roulette_winner h sBackends ball).

Definition get_backend_select_function (sc : select_criteria_t)
  : BackendSelectFunction :=
  match sc with
  | LEAST_GLOBAL_CONNECTIONS => backend_cmp_global_conn
  | LEAST_ROUTER_CONNECTIONS => backend_cmp_router_conn
  | LEAST_BEHIND_MASTER => backend_cmp_behind_master
  | LEAST_CURRENT_OPERATIONS => backend_cmp_current_load
  | ADAPTIVE_ROUTING => backend_cmp_response_time
  end.

End Selection.

(* ================================================================== *)
(** * [find_best_backend] *)
(* ================================================================== *)

(** The priority of a backend: 1 for an idle server that acts as a slave,
    13 for a busy one, 2 for a server that does not act as a slave. *)
Definition priority_of (h : Heap) (masters_accepts_reads : bool) (b : BackendId) : Z :=
  let is_busy := in_use (h b) && has_session_commands (h b) in
  let acts_slave := is_slave (h b) || (is_master (h b) && masters_accepts_reads) in
  if acts_slave
  then (if negb is_busy then 1 else 13)
  else 2.

(** One round of the grouping loop:
    [priority_map[priority].push_back(psBackend)] and
    [best_priority = std::min(best_priority, priority)].  The map is the
    [std::map<int, PRWBackends>]; [operator[]] on a missing key gives the
    empty vector, as [!!!] does. *)
Definition group_step (h : Heap) (masters_accepts_reads : bool)
    (acc : gmap Z PRWBackends * Z) (psBackend : BackendId) : gmap Z PRWBackends * Z :=
  let priority := priority_of h masters_accepts_reads psBackend in
  (<[priority := (acc.1 !!! priority) ++ [psBackend]]> (acc.1),
   Z.min (acc.2) priority).

Definition group_by_priority (h : Heap) (masters_accepts_reads : bool)
    (backends : PRWBackends) : gmap Z PRWBackends * Z :=
  fold_left (group_step h masters_accepts_reads) backends (∅, INT_MAX).

(** [std::find (l.begin(), l.end(), p)]: the first position that holds
    [p], or [end()]. *)
Fixpoint std_find (l : PRWBackends) (p : BackendId) : nat :=
  match l with
  | [] => 0%nat
  | x :: l' => if Nat.eqb x p then 0%nat else S (std_find l' p)
  end.

Definition find_best_backend (backends : PRWBackends)
    (select : BackendSelectFunction) (masters_accepts_reads : bool) : M nat :=
  let* h := get_heap in
  let grouped := group_by_priority h masters_accepts_reads backends in
  let bucket := (grouped.1) !!! (grouped.2) in
  let* best := select bucket in
  match bucket !! best with
  | None => fail UndefinedBehaviour          (* [*best] with [best == end()] *)
  | Some p => ret (std_find backends p)
  end.

(* ================================================================== *)
(** * Session bring-up *)
(* ================================================================== *)

(** [get_root_master]: the first backend of the vector that is a master,
    or a null pointer. *)
Fixpoint get_root_master (h : Heap) (backends : PRWBackends) : option BackendId :=
  match backends with
  | [] => None
  | candidate :: rest =>
      if is_master (h candidate) then Some candidate
      else get_root_master h rest
  end.

(** One round of the loop of [get_slave_counts]. *)
Definition count_step (h : Heap) (master : option BackendId)
    (counts : Z * Z) (b : BackendId) : Z * Z :=
  if can_connect (h b) && valid_for_slave h b master
  then (int_add (counts.1) 1,
        if in_use (h b) then int_add (counts.2) 1 else counts.2)
  else counts.

(** [get_slave_counts]: the pair [(slaves_found, slaves_connected)]. *)
Definition get_slave_counts (h : Heap) (backends : PRWBackends)
    (master : option BackendId) : Z * Z :=
  fold_left (count_step h master) backends (0, 0).

(** What the call gives back: its return value and the final contents of
    the two out-parameters. *)
Record Outcome := {
  rval : bool;
  out_master : option BackendId;       (* [*current_master] *)
  out_expected : option Z              (* [*expected_responses]; [None] for a null pointer *)
}.

(** Modelled from the spec: the constructor of [Config] is not part of
    this file's source.  The field [backend_select_fct] is the selection
    function bound to the configured policy. *)
Definition backend_select_fct (zero_to_one_exclusive : nat -> double) (cnf : Config)
  : BackendSelectFunction :=
  get_backend_select_function zero_to_one_exclusive (slave_selection_criteria cnf).

(** The backend after a successful [connect] (see [connect] below): it
    is in use and the connection counter of its server reference has
    moved by one. *)
Definition set_in_use (b : RWBackend) : RWBackend :=
  {| backend := {| server := server (backend b);
                   server_weight := server_weight (backend b);
                   connections := int_add (connections (backend b)) 1 |};
     is_master := is_master b;
     is_slave := is_slave b;
     is_relay := is_relay b;
     in_use := true;
     has_session_commands := has_session_commands b;
     can_connect := can_connect b |}.

(** Assignment through a backend pointer. *)
Definition heap_set (h : Heap) (b : BackendId) (v : RWBackend) : Heap :=
  fun x => if Nat.eqb x b then v else h x.

(** [sescmd_list && sescmd_list->size()]. *)
Definition sescmd_nonempty (sescmd_list : option SessionCommandList) : bool :=
  match sescmd_list with
  | Some (_ :: _) => true
  | _ => false
  end.

Section Bringup.

Variable zero_to_one_exclusive : nat -> double.

(** Whether the attempt to open a connection to a backend succeeds; it
    is decided by the network, outside the code. *)
Variable connect_succeeds : World -> BackendId -> bool.

(** Modelled from the spec: [RWBackend::connect] is not part of this
    file's source.  It is an atomic step that reports success or
    failure; on success the backend becomes [in_use] and its connection
    counter moves, on failure no state changes.  The call is recorded
    in the log. *)
Definition connect (b : BackendId) (sescmd_list : option SessionCommandList)
    (as_slave : bool) : M bool :=
  fun w =>
    let ok := connect_succeeds w b in
    Ok (ok,
        {| heap := if ok then heap_set (heap w) b (set_in_use (heap w b)) else heap w;
           draws := draws w;
           connect_log := connect_log w ++
             [{| cc_backend := b; cc_sescmd := sescmd_list;
                 cc_slave := as_slave; cc_ok := ok |}] |}).

(** The loop that connects the master when [type == ALL]. *)
Fixpoint connect_master (rest : PRWBackends) (master : option BackendId)
    (current_master : option BackendId) : M (option BackendId) :=
  match rest with
  | [] => ret current_master
  | b :: rest' =>
      let* h := get_heap in
      if can_connect (h b)
         && match master with Some m => Nat.eqb b m | None => false end
      then
        let* ok := connect b None false in
        ret (if ok then Some b else current_master)      (* then [break] *)
      else connect_master rest' master current_master
  end.

(** The top-up loop.  [fuel] bounds the number of times the body may
    run. *)
Fixpoint topup_loop (fuel : nat) (select : BackendSelectFunction)
    (sescmd_list : option SessionCommandList) (max_nslaves : Z)
    (slaves_connected : Z) (candidates : PRWBackends)
    (expected_responses : option Z) : M (option Z) :=
  if (slaves_connected <? max_nslaves) && negb (Nat.eqb (length candidates) 0)
  then
    match fuel with
    | O => fail OutOfFuel
    | S fuel' =>
        let* ite := select candidates in
        if Nat.eqb ite (length candidates)
        then ret expected_responses                       (* [break] *)
        else
          match candidates !! ite with
          | None => fail UndefinedBehaviour
          | Some b =>
              let* ok := connect b sescmd_list true in
              topup_loop fuel' select sescmd_list max_nslaves
                (if ok then int_add slaves_connected 1 else slaves_connected)
                (delete ite candidates)
                (if ok && sescmd_nonempty sescmd_list
                 then (fun e => int_add e 1) <$> expected_responses
                 else expected_responses)
          end
    end
  else ret expected_responses.

(** The vector [candidates]: the backends that are not in use, can
    connect and are valid slaves for the master. *)
Definition slave_candidates (h : Heap) (backends : PRWBackends)
    (master : option BackendId) : PRWBackends :=
  List.filter (fun p => negb (in_use (h p)) && can_connect (h p)
                        && valid_for_slave h p master) backends.

(** [!master || !master->can_connect()]. *)
Definition master_unusable (h : Heap) (master : option BackendId) : bool :=
  match master with
  | None => true
  | Some m => negb (can_connect (h m))
  end.

(** [RWSplit::select_connect_backend_servers].  The session handle is
    only passed on to [connect]; the log messages and the debug
    assertion on the slave count (absent from release builds) have no
    effect on the state. *)
Definition select_connect_backend_servers (rt : RWSplit)
    (backends : PRWBackends) (current_master : option BackendId)
    (sescmd_list : option SessionCommandList)
    (expected_responses : option Z) (type : connection_type) : M Outcome :=
  let* h := get_heap in
  let master := get_root_master h backends in
  let cnf := config rt in
  if master_unusable h master
     && bool_decide (master_failure_mode cnf = RW_FAIL_INSTANTLY)
  then ret {| rval := false; out_master := current_master;
              out_expected := expected_responses |}
  else
    let* current_master :=
      (if bool_decide (type = ALL)
       then connect_master backends master current_master
       else ret current_master) in
    let* h := get_heap in
    let counts := get_slave_counts h backends master in
    let slaves_connected := counts.2 in
    let max_nslaves := max_slave_count rt in
    let candidates := slave_candidates h backends master in
    let* expected_responses :=
      topup_loop (length candidates) (backend_select_fct zero_to_one_exclusive cnf)
        sescmd_list max_nslaves slaves_connected candidates expected_responses in
    ret {| rval := true; out_master := current_master;
           out_expected := expected_responses |}.

End Bringup.

(* ================================================================== *)
(** * Properties of the arithmetic *)
(* ================================================================== *)

(** ** The order of [SFcompare]

    [SFcompare] orders every pair of non-NaN values: by sign, then by
    exponent, then by mantissa.  The lemmas below hold for every
    [spec_float]. *)

Lemma SFcompare_finite_pos m1 e1 m2 e2 :
  SFcompare (S754_finite false m1 e1) (S754_finite false m2 e2) =
  Some (match e1 ?= e2 with Lt => Lt | Gt => Gt | Eq => (m1 ?= m2)%positive end).
Proof. reflexivity. Qed.

Lemma SFcompare_finite_neg m1 e1 m2 e2 :
  SFcompare (S754_finite true m1 e1) (S754_finite true m2 e2) =
  Some (match e1 ?= e2 with Lt => Gt | Gt => Lt | Eq => CompOpp (m1 ?= m2)%positive end).
Proof. reflexivity. Qed.

Ltac order_cases :=
  repeat match goal with
  | |- context [ (?a ?= ?b)%Z ] => destruct (Z.compare_spec a b); subst
  | |- context [ (?a ?= ?b)%positive ] => destruct (Pos.compare_spec a b); subst
  | H : context [ (?a ?= ?b)%Z ] |- _ => destruct (Z.compare_spec a b); subst
  | H : context [ (?a ?= ?b)%positive ] |- _ => destruct (Pos.compare_spec a b); subst
  end; simpl in *; try congruence; try lia.

Ltac float_cases x :=
  destruct x as [ [] | [] | | [] ? ? ].

Lemma ltb_irrefl x : ltb x x = false.
Proof.
  unfold ltb, SFltb. float_cases x; try reflexivity.
  - rewrite SFcompare_finite_neg. order_cases.
  - rewrite SFcompare_finite_pos. order_cases.
Qed.

Lemma ltb_trans x y z : ltb x y = true -> ltb y z = true -> ltb x z = true.
Proof.
  unfold ltb, SFltb.
  float_cases x; float_cases y; try (simpl; congruence);
    float_cases z; try (simpl; congruence);
    rewrite ?SFcompare_finite_neg, ?SFcompare_finite_pos; intros; order_cases.
Qed.

Lemma leb_ltb_trans x y z : leb x y = true -> ltb y z = true -> ltb x z = true.
Proof.
  unfold leb, ltb, SFleb, SFltb.
  float_cases x; float_cases y; try (simpl; congruence);
    float_cases z; try (simpl; congruence);
    rewrite ?SFcompare_finite_neg, ?SFcompare_finite_pos; intros; order_cases.
Qed.

(* ================================================================== *)
(** * Properties of [best_score] *)
(* ================================================================== *)

(** The specification's reading of "best of score": position [i] holds a
    backend whose compared score is below the initial minimum, no backend
    of the list has a smaller compared score, and every earlier backend
    has a strictly larger one (or a NaN). *)
Definition first_lowest (cs : BackendId -> double) (l : PRWBackends) (i : nat) : Prop :=
  exists b, l !! i = Some b
    /\ ltb (cs b) DBL_MAX = true
    /\ (forall j b', l !! j = Some b' -> ltb (cs b') (cs b) = false)
    /\ (forall j b', (j < i)%nat -> l !! j = Some b' -> leb (cs b') (cs b) = false).

(** No backend of the list can replace the initial minimum. *)
Definition none_below (cs : BackendId -> double) (l : PRWBackends) : Prop :=
  forall b, b ∈ l -> ltb (cs b) DBL_MAX = false.

Section BestScore.

Variable h : Heap.
Variable server_score : SERVER_REF -> double.

Let cs := compared_score h server_score.

(** The state of the loop after the prefix [pre] of the vector. *)
Inductive bs_state (endp : nat) (pre : PRWBackends) (min : double) (best : nat) : Prop :=
  | bs_none : best = endp -> min = DBL_MAX -> none_below cs pre ->
              bs_state endp pre min best
  | bs_some : forall b, pre !! best = Some b -> min = cs b ->
              first_lowest cs pre best -> bs_state endp pre min best.

Lemma bs_state_min_le endp pre min best x :
  bs_state endp pre min best -> ltb x min = true -> ltb x DBL_MAX = true.
Proof.
  intros [_ -> _ | b Hb -> (b0 & Hb0 & Hlt & _)] Hx; [ exact Hx | ].
  assert (b0 = b) by congruence. subst b0.
  eapply ltb_trans; eassumption.
Qed.

Lemma bs_state_prefix_not_below endp pre min best j b' :
  bs_state endp pre min best -> pre !! j = Some b' -> ltb (cs b') min = false.
Proof.
  intros [_ -> Hn | b Hb -> (b0 & Hb0 & _ & Hmin & _)] Hj.
  - apply Hn. eapply list_elem_of_lookup_2; eassumption.
  - assert (b0 = b) by congruence. subst b0. eapply Hmin; eassumption.
Qed.

Lemma bs_state_take endp pre min best b :
  bs_state endp pre min best -> ltb (cs b) min = true ->
  bs_state endp (pre ++ [b]) (cs b) (length pre).
Proof.
  intros Hst Hlt.
  apply bs_some with (b := b); [ apply list_lookup_middle; reflexivity | reflexivity | ].
  exists b. split; [ apply list_lookup_middle; reflexivity | ].
  split; [ eapply bs_state_min_le; eassumption | ].
  split.
  - intros j b' Hj.
    destruct (ltb (cs b') (cs b)) eqn:E; [ | reflexivity ].
    apply lookup_app_Some in Hj as [Hj | [_ Hj]].
    + pose proof (bs_state_prefix_not_below _ _ _ _ _ _ Hst Hj) as Hn.
      rewrite (ltb_trans _ _ _ E Hlt) in Hn. discriminate.
    + apply list_lookup_singleton_Some in Hj as [_ <-].
      rewrite ltb_irrefl in E. discriminate.
  - intros j b' Hlen Hj.
    destruct (leb (cs b') (cs b)) eqn:E; [ | reflexivity ].
    rewrite lookup_app_l in Hj by exact Hlen.
    pose proof (bs_state_prefix_not_below _ _ _ _ _ _ Hst Hj) as Hn.
    rewrite (leb_ltb_trans _ _ _ E Hlt) in Hn. discriminate.
Qed.

Lemma bs_state_skip endp pre min best b :
  bs_state endp pre min best -> ltb (cs b) min = false ->
  bs_state endp (pre ++ [b]) min best.
Proof.
  intros [Hbest Hmin Hn | b0 Hb0 Hmin (b1 & Hb1 & Hlt & Hlow & Hfirst)] Hge.
  - apply bs_none; [ assumption .. | ].
    intros x Hx. apply elem_of_app in Hx as [Hx | Hx]; [ auto | ].
    apply list_elem_of_singleton in Hx. subst x. congruence.
  - assert (b1 = b0) by congruence. subst b1.
    apply bs_some with (b := b0);
      [ apply lookup_app_l_Some; assumption | assumption | ].
    exists b0. split; [ apply lookup_app_l_Some; assumption | ].
    split; [ assumption | ]. split.
    + intros j b' Hj. apply lookup_app_Some in Hj as [Hj | [_ Hj]].
      * eauto.
      * apply list_lookup_singleton_Some in Hj as [_ <-]. congruence.
    + intros j b' Hlen Hj.
      apply lookup_lt_Some in Hb0.
      rewrite lookup_app_l in Hj by lia. eauto.
Qed.

Lemma best_score_loop_state endp rest :
  forall pre min best,
    bs_state endp pre min best ->
    exists min',
      bs_state endp (pre ++ rest) min'
        (best_score_loop h server_score rest (length pre) min best).
Proof.
  induction rest as [ | b rest IH ]; intros pre min best Hst; simpl.
  - exists min. rewrite app_nil_r. exact Hst.
  - fold cs. destruct (ltb (cs b) min) eqn:E.
    + destruct (IH (pre ++ [b]) (cs b) (length pre)) as [min' Hm].
      { eapply bs_state_take; eassumption. }
      exists min'. rewrite length_app, Nat.add_1_r in Hm.
      rewrite <- app_assoc in Hm. exact Hm.
    + destruct (IH (pre ++ [b]) min best) as [min' Hm].
      { eapply bs_state_skip; eassumption. }
      exists min'. rewrite length_app, Nat.add_1_r in Hm.
      rewrite <- app_assoc in Hm. exact Hm.
Qed.

(** [best_score] returns [end()] exactly when no compared score is
    below the initial minimum, and otherwise the first lowest. *)
Lemma best_score_spec l :
  (best_score h l server_score = length l /\ none_below cs l)
  \/ first_lowest cs l (best_score h l server_score).
Proof.
  unfold best_score.
  destruct (best_score_loop_state (length l) l [] DBL_MAX (length l)) as [min' Hst].
  { apply bs_none; [ reflexivity | reflexivity | ].
    intros b Hb. apply elem_of_nil in Hb. contradiction. }
  simpl in Hst. destruct Hst as [Hb _ Hn | b _ _ Hf]; [ left | right ]; auto.
Qed.

Lemma first_lowest_lt l i : first_lowest cs l i -> (i < length l)%nat.
Proof. intros (b & Hb & _). eapply lookup_lt_Some; eassumption. Qed.

Lemma best_score_le_length l : (best_score h l server_score <= length l)%nat.
Proof.
  destruct (best_score_spec l) as [[-> _] | Hf]; [ lia | ].
  apply first_lowest_lt in Hf. lia.
Qed.

Lemma best_score_none_iff l :
  best_score h l server_score = length l <-> none_below cs l.
Proof.
  split.
  - intros Hb. destruct (best_score_spec l) as [[_ Hn] | Hf]; [ exact Hn | ].
    apply first_lowest_lt in Hf. lia.
  - intros Hn. destruct (best_score_spec l) as [[Hb _] | (b & Hb & Hlt & _)];
      [ exact Hb | ].
    rewrite (Hn b) in Hlt; [ discriminate | ].
    eapply list_elem_of_lookup_2; eassumption.
Qed.

End BestScore.

(** ** Servers of weight zero *)

Definition zero_weight_excluded (server_score : SERVER_REF -> double) : Prop :=
  forall s, eqb (server_weight s) zero = true -> server_score s = DBL_MAX.

Lemma score_router_conn_zero : zero_weight_excluded score_router_conn.
Proof. intros s Hs. unfold score_router_conn, to_bool. rewrite Hs. reflexivity. Qed.

Lemma score_global_conn_zero : zero_weight_excluded score_global_conn.
Proof. intros s Hs. unfold score_global_conn, to_bool. rewrite Hs. reflexivity. Qed.

Lemma score_behind_master_zero : zero_weight_excluded score_behind_master.
Proof. intros s Hs. unfold score_behind_master, to_bool. rewrite Hs. reflexivity. Qed.

Lemma score_current_load_zero : zero_weight_excluded score_current_load.
Proof. intros s Hs. unfold score_current_load, to_bool. rewrite Hs. reflexivity. Qed.

(** The compared score of a server of weight zero is never below the
    initial minimum: it is [DBL_MAX] itself, or its inflation, which
    overflows to infinity. *)
Lemma zero_weight_not_below h server_score b :
  zero_weight_excluded server_score ->
  eqb (server_weight (backend (h b))) zero = true ->
  ltb (compared_score h server_score b) DBL_MAX = false.
Proof.
  intros Hz Hw. unfold compared_score. rewrite (Hz _ Hw).
  destruct (in_use (h b)); vm_compute; reflexivity.
Qed.

Lemma best_score_never_zero_weight h server_score l b :
  zero_weight_excluded server_score ->
  l !! best_score h l server_score = Some b ->
  eqb (server_weight (backend (h b))) zero = false.
Proof.
  intros Hz Hb.
  destruct (best_score_spec h server_score l) as [[He _] | (b' & Hb' & Hlt & _)].
  - rewrite He in Hb. apply lookup_lt_Some in Hb. lia.
  - assert (b' = b) by congruence. subst b'.
    destruct (eqb (server_weight (backend (h b))) zero) eqn:E; [ | reflexivity ].
    rewrite (zero_weight_not_below h server_score b Hz E) in Hlt. discriminate.
Qed.

(** The score function behind each policy but the adaptive one. *)
Definition policy_score (sc : select_criteria_t) : option (SERVER_REF -> double) :=
  match sc with
  | LEAST_GLOBAL_CONNECTIONS => Some score_global_conn
  | LEAST_ROUTER_CONNECTIONS => Some score_router_conn
  | LEAST_BEHIND_MASTER => Some score_behind_master
  | LEAST_CURRENT_OPERATIONS => Some score_current_load
  | ADAPTIVE_ROUTING => None
  end.

Lemma policy_score_zero sc server_score :
  policy_score sc = Some server_score -> zero_weight_excluded server_score.
Proof.
  destruct sc; intros [= <-];
    auto using score_router_conn_zero, score_global_conn_zero,
               score_behind_master_zero, score_current_load_zero.
Qed.

Lemma non_adaptive_is_best_score draw sc server_score l w :
  policy_score sc = Some server_score ->
  get_backend_select_function draw sc l w = Ok (best_score (heap w) l server_score, w).
Proof. destruct sc; intros [= <-]; reflexivity. Qed.

Lemma int_add_no_overflow a b :
  INT_MIN <= a + b <= INT_MAX -> int_add a b = a + b.
Proof.
  unfold int_add, int_wrap, INT_MIN, INT_MAX. intros H.
  rewrite Z.mod_small by lia. lia.
Qed.

Lemma positive_to_bool x : ltb zero x = true -> to_bool x = true.
Proof.
  unfold to_bool, eqb, ltb, SFeqb, SFltb, zero.
  float_cases x; simpl; congruence.
Qed.

(** A backend with its [in_use] flag replaced. *)
Definition with_in_use (b : RWBackend) (u : bool) : RWBackend :=
  {| backend := backend b;
     is_master := is_master b;
     is_slave := is_slave b;
     is_relay := is_relay b;
     in_use := u;
     has_session_commands := has_session_commands b;
     can_connect := can_connect b |}.

Lemma response_averages_in_use h l b u :
  response_averages (heap_set h b (with_in_use (h b) u)) l = response_averages h l.
Proof.
  unfold response_averages. apply map_ext. intros x. unfold heap_set.
  destruct (Nat.eqb_spec x b) as [-> | _]; reflexivity.
Qed.

(* ================================================================== *)
(** * Properties of the roulette *)
(* ================================================================== *)

(** The cumulative sum [p_0 + ... + p_i], added from the left as the
    code adds it. *)
Definition cumulative (slot : list double) (i : nat) : double :=
  sum_from zero (take (S i) slot).

(** The specification's reading of the winner: the first index whose
    cumulative sum exceeds the ball, and the last index when there is
    none. *)
Fixpoint first_exceeding (ball : double) (slot : list double) (acc : double)
    (i : nat) : option nat :=
  match slot with
  | [] => None
  | s :: slot' =>
      if ltb ball (add acc s) then Some i
      else first_exceeding ball slot' (add acc s) (S i)
  end.

Definition claimed_winner (ball : double) (slot : list double) : nat :=
  match first_exceeding ball slot zero 0 with
  | Some i => i
  | None => (length slot - 1)%nat
  end.

Lemma roll_spec ball slot :
  forall acc k,
    let w := roll ball slot acc k in
    (k <= w <= k + length slot)%nat
    /\ (forall j, (j < w - k)%nat ->
          ltb ball (sum_from acc (take (S j) slot)) = false)
    /\ ((w < k + length slot)%nat ->
          ltb ball (sum_from acc (take (S (w - k)) slot)) = true).
Proof.
  induction slot as [ | s slot IH ]; intros acc k; simpl.
  - repeat split; intros; lia.
  - destruct (ltb ball (add acc s)) eqn:E.
    + repeat split; try lia.
      intros _. rewrite Nat.sub_diag. simpl. rewrite ?take_0. exact E.
    + destruct (IH (add acc s) (S k)) as (Hr & Hbelow & Hhit).
      repeat split; try lia.
      * intros j Hj. destruct j as [ | j ]; simpl.
        -- rewrite ?take_0. exact E.
        -- apply Hbelow. lia.
      * intros Hw.
        replace (roll ball slot (add acc s) (S k) - k)%nat
          with (S (roll ball slot (add acc s) (S k) - S k)) by lia.
        simpl. apply Hhit. lia.
Qed.

Lemma roulette_slots_length aves : length (roulette_slots aves) = length aves.
Proof. unfold roulette_slots. rewrite !length_map. reflexivity. Qed.

Lemma roulette_winner_le_length h l ball :
  (roulette_winner h l ball <= length l)%nat.
Proof.
  unfold roulette_winner.
  pose proof (roll_spec ball (roulette_slots (response_averages h l)) zero 0) as Hr.
  cbv zeta in Hr. destruct Hr as (Hr & _).
  rewrite roulette_slots_length in Hr. unfold response_averages in *.
  rewrite length_map in Hr. simpl in Hr. lia.
Qed.

(** ** Example servers and heaps *)

Definition example_server (ave weight : double) (conns : Z) : SERVER_REF :=
  {| server := {| stats := {| n_current := 0; n_current_ops := 0 |};
                  rlag := 0;
                  response_time_average := ave |};
     server_weight := weight;
     connections := conns |}.

Definition example_slave (ave weight : double) (conns : Z) (used busy : bool) : RWBackend :=
  {| backend := example_server ave weight conns;
     is_master := false; is_slave := true; is_relay := false;
     in_use := used; has_session_commands := busy; can_connect := true |}.

Definition example_master (usable : bool) : RWBackend :=
  {| backend := example_server (of_int 1) (of_int 1) 0;
     is_master := true; is_slave := false; is_relay := false;
     in_use := false; has_session_commands := false; can_connect := usable |}.

(** Three idle slaves with response time averages of 1, 1 and 3
    seconds. *)
Definition drift_heap : Heap :=
  fun b => match b with
           | 0%nat | 1%nat => example_slave (of_int 1) (of_int 1) 0 false false
           | _ => example_slave (of_int 3) (of_int 1) 0 false false
           end.

(** The largest double below one, [1 - 2^-53]. *)
Definition below_one : double := S754_finite false 9007199254740991 (-53).

Lemma roll_first_exceeding ball slot :
  forall acc k,
    roll ball slot acc k =
    match first_exceeding ball slot acc k with
    | Some i => i
    | None => (k + length slot)%nat
    end.
Proof.
  induction slot as [ | s slot IH ]; intros acc k; simpl.
  - lia.
  - destruct (ltb ball (add acc s)); [ reflexivity | ].
    rewrite IH. destruct (first_exceeding ball slot (add acc s) (S k)); lia.
Qed.

(** X1: the winner of the roulette, for every candidate list and every
    ball: it is the smallest index whose cumulative sum of normalised
    slots strictly exceeds the ball; when no index does, the function
    returns the position past the last candidate, that is [end()].
    Whenever some index exceeds the ball the code agrees with the
    specification's winner.  The draw consumes one value of the worker's
    engine and changes nothing else. *)
Theorem roulette_winner_first_exceeding :
  forall (h : Heap) (l : PRWBackends) (ball : double),
    let p := roulette_slots (response_averages h l) in
    let w := roulette_winner h l ball in
    (w <= length l)%nat
    /\ (forall j, (j < w)%nat -> ltb ball (cumulative p j) = false)
    /\ ((w < length l)%nat -> ltb ball (cumulative p w) = true)
    /\ ((forall j, (j < length l)%nat -> ltb ball (cumulative p j) = false) ->
        w = length l)
    /\ (forall i, first_exceeding ball p zero 0 = Some i ->
        w = i /\ claimed_winner ball p = i)
    /\ (forall z wd,
          backend_cmp_response_time z l wd =
          Ok (roulette_winner (heap wd) l (z (draws wd)),
              {| heap := heap wd; draws := S (draws wd);
                 connect_log := connect_log wd |})).
Proof.
  intros h l ball p w.
  pose proof (roll_spec ball p zero 0) as Hr. cbv zeta in Hr.
  change (roll ball p zero 0) with w in Hr.
  destruct Hr as (Hrange & Hbelow & Hhit).
  assert (Hlen : length p = length l).
  { unfold p. rewrite roulette_slots_length. unfold response_averages.
    apply length_map. }
  rewrite Hlen in Hrange, Hhit. rewrite Nat.sub_0_r in Hhit.
  split; [ lia | ]. split.
  { intros j Hj. apply Hbelow. lia. }
  split; [ exact Hhit | ]. split.
  { intros Hall. destruct (Nat.eq_dec w (length l)) as [ | Hne ]; [ assumption | ].
    assert (Hw : (w < length l)%nat) by lia.
    specialize (Hhit Hw). fold (cumulative p w) in Hhit.
    rewrite (Hall w Hw) in Hhit. discriminate Hhit. }
  split.
  { intros i Hi. unfold w, roulette_winner, claimed_winner. fold p.
    rewrite roll_first_exceeding, Hi. split; reflexivity. }
  intros z wd. reflexivity.
Qed.

(** C3: the code does not do what the claim says when no cumulative sum
    exceeds the ball.  Three candidates with averages of 1, 1 and 3
    seconds and the ball [1 - 2^-53], a value of [0, 1): the normalised
    slots, which the code's comment takes to add up to 1.0, add up to
    [1 - 2^-53]; no cumulative sum exceeds the ball, and the code returns
    position 3, which is [end()], where the claim names the last
    candidate, position 2. *)
Lemma roulette_drift_returns_end :
  let l := [0; 1; 2]%nat in
  let p := roulette_slots (response_averages drift_heap l) in
  leb zero below_one = true
  /\ ltb below_one (of_int 1) = true
  /\ (1 <= length l)%nat
  /\ first_exceeding below_one p zero 0 = None
  /\ roulette_winner drift_heap l below_one = 3%nat
  /\ claimed_winner below_one p = 2%nat
  /\ roulette_winner drift_heap l below_one <> claimed_winner below_one p.
Proof.
  vm_compute. repeat split; try reflexivity; try lia; discriminate.
Qed.

(* ================================================================== *)
(** * Properties of the scores *)
(* ================================================================== *)

(** C7 (amended): for a server of positive weight the four scores are
    the quotients [(connections + 1) / weight], [(n_current + 1) / weight],
    [rlag / weight] and [(n_current_ops + 1) / weight], for counters that
    the increment keeps in the range of [int]; a server of weight zero is
    scored [std::numeric_limits<double>::max()], the largest finite
    double (not infinity), and no policy but the adaptive one ever
    returns a server of weight zero. *)
Theorem non_adaptive_scores_and_zero_weight :
  (forall s : SERVER_REF,
     ltb zero (server_weight s) = true ->
     (0 <= connections s < INT_MAX ->
      score_router_conn s = div (of_int (connections s + 1)) (server_weight s))
     /\ (0 <= n_current (stats (server s)) < INT_MAX ->
         score_global_conn s =
         div (of_int (n_current (stats (server s)) + 1)) (server_weight s))
     /\ score_behind_master s = div (of_int (rlag (server s))) (server_weight s)
     /\ (0 <= n_current_ops (stats (server s)) < INT_MAX ->
         score_current_load s =
         div (of_int (n_current_ops (stats (server s)) + 1)) (server_weight s)))
  /\ (forall s : SERVER_REF,
        eqb (server_weight s) zero = true ->
        score_router_conn s = DBL_MAX /\ score_global_conn s = DBL_MAX
        /\ score_behind_master s = DBL_MAX /\ score_current_load s = DBL_MAX)
  /\ (forall z sc l w i w' b,
        sc <> ADAPTIVE_ROUTING ->
        get_backend_select_function z sc l w = Ok (i, w') ->
        l !! i = Some b ->
        eqb (server_weight (backend (heap w b))) zero = false).
Proof.
  split; [ | split ].
  - intros s Hs. apply positive_to_bool in Hs.
    unfold score_router_conn, score_global_conn, score_behind_master,
      score_current_load. rewrite Hs.
    repeat split; try reflexivity; intros Hr;
      rewrite int_add_no_overflow; try reflexivity; unfold INT_MIN, INT_MAX in *; lia.
  - intros s Hs.
    auto using score_router_conn_zero, score_global_conn_zero,
               score_behind_master_zero, score_current_load_zero.
  - intros z sc l w i w' b Hsc Hsel Hb.
    destruct (policy_score sc) as [ score | ] eqn:Hp;
      [ | destruct sc; try discriminate; congruence ].
    rewrite (non_adaptive_is_best_score z sc score l w Hp) in Hsel.
    injection Hsel as <- <-.
    eapply best_score_never_zero_weight; [ eapply policy_score_zero | ]; eassumption.
Qed.

(** C7, counterexample: the score of a server of weight zero is the
    largest finite double, which is not infinity. *)
Lemma zero_weight_score_is_finite :
  let s := example_server (of_int 1) zero 0 in
  eqb (server_weight s) zero = true
  /\ score_router_conn s = DBL_MAX
  /\ score_router_conn s <> pinf
  /\ score_global_conn s <> pinf
  /\ score_behind_master s <> pinf
  /\ score_current_load s <> pinf.
Proof. vm_compute. repeat split; try reflexivity; discriminate. Qed.

(** The first scenario of the specification: two idle slaves with 2 and
    1 router connections, and a busy slave in use with none. *)
Definition scenario_heap : Heap :=
  fun b => match b with
           | 0%nat => example_slave (of_int 1) (of_int 1) 2 false false
           | 1%nat => example_slave (of_int 1) (of_int 1) 1 false false
           | _ => example_slave (of_int 1) (of_int 1) 0 true true
           end.

Definition scenario_world : World :=
  {| heap := scenario_heap; draws := 0; connect_log := [] |}.

(** C7, witness: a server of weight 2 with 3 router connections scores
    [(3 + 1) / 2], and the least-router-connections policy picks a server
    of non-zero weight in the first scenario. *)
Lemma non_adaptive_scores_witness :
  score_router_conn (example_server (of_int 1) (of_int 2) 3)
  = div (of_int (3 + 1)) (of_int 2)
  /\ eqb (server_weight (backend (scenario_heap 1%nat))) zero = false.
Proof.
  split.
  - apply (proj1 non_adaptive_scores_and_zero_weight
             (example_server (of_int 1) (of_int 2) 3)).
    + vm_compute. reflexivity.
    + simpl. unfold INT_MAX. lia.
  - apply (proj2 (proj2 non_adaptive_scores_and_zero_weight)
             (fun _ => zero) LEAST_ROUTER_CONNECTIONS [0; 1]%nat scenario_world
             1%nat scenario_world 1%nat).
    + discriminate.
    + vm_compute. reflexivity.
    + reflexivity.
Defined.

(** C8: in [best_score] a backend that is not in use takes part in the
    comparison with [(score + 5.0) * 1.5] and one in use with its score;
    the result is the first position of the lowest compared score, or
    [end()] when no compared score is below the initial minimum, as for
    the empty vector; every policy but the adaptive one is [best_score]
    with its score and changes nothing; the adaptive winner does not
    depend on the [in_use] flag of any backend. *)
Theorem best_score_inflation_ties_and_none :
  (forall h server_score b,
     compared_score h server_score b =
     if in_use (h b) then server_score (backend (h b))
     else mul (add (server_score (backend (h b))) five) one_and_half)
  /\ (forall h server_score l,
        (best_score h l server_score = length l
         /\ none_below (compared_score h server_score) l)
        \/ first_lowest (compared_score h server_score) l
             (best_score h l server_score))
  /\ (forall h server_score, best_score h [] server_score = 0%nat)
  /\ (forall z sc server_score l w,
        policy_score sc = Some server_score ->
        get_backend_select_function z sc l w
        = Ok (best_score (heap w) l server_score, w))
  /\ (forall h l ball b u,
        roulette_winner (heap_set h b (with_in_use (h b) u)) l ball
        = roulette_winner h l ball).
Proof.
  split; [ | split; [ | split; [ | split ] ] ].
  - intros h server_score b. unfold compared_score.
    destruct (in_use (h b)); reflexivity.
  - intros h server_score l. apply best_score_spec.
  - reflexivity.
  - intros z sc server_score l w Hp. apply non_adaptive_is_best_score. exact Hp.
  - intros h l ball b u. unfold roulette_winner.
    rewrite response_averages_in_use. reflexivity.
Qed.

(** C8, witness: in the first scenario the least-router-connections
    policy is [best_score] with [score_router_conn]; among the two idle
    slaves it returns position 1, the one with fewer connections. *)
Lemma best_score_inflation_witness :
  get_backend_select_function (fun _ => zero) LEAST_ROUTER_CONNECTIONS
    [0; 1]%nat scenario_world
  = Ok (1%nat, scenario_world).
Proof.
  rewrite (proj1 (proj2 (proj2 (proj2 best_score_inflation_ties_and_none)))
             (fun _ => zero) LEAST_ROUTER_CONNECTIONS score_router_conn
             [0; 1]%nat scenario_world).
  - vm_compute. reflexivity.
  - reflexivity.
Defined.

(* ================================================================== *)
(** * Properties of [find_best_backend] *)
(* ================================================================== *)

(** The backends of one priority, in the order of the vector. *)
Definition bucket_of (h : Heap) (masters_accepts_reads : bool)
    (l : PRWBackends) (p : Z) : PRWBackends :=
  List.filter (fun b => Z.eqb (priority_of h masters_accepts_reads b) p) l.

(** The lowest priority of the vector, [INT_MAX] for the empty one. *)
Definition best_priority_of (h : Heap) (masters_accepts_reads : bool)
    (l : PRWBackends) : Z :=
  fold_left Z.min (map (priority_of h masters_accepts_reads) l) INT_MAX.

(** The specification's "lowest-numbered non-empty bucket". *)
Definition lowest_bucket (h : Heap) (masters_accepts_reads : bool)
    (l : PRWBackends) : PRWBackends :=
  bucket_of h masters_accepts_reads l (best_priority_of h masters_accepts_reads l).

Lemma group_fold h mar l :
  forall acc : gmap Z (list BackendId) * Z,
    (forall p, (fold_left (group_step h mar) l acc).1 !!! p
               = (acc.1 !!! p) ++ bucket_of h mar l p)
    /\ (fold_left (group_step h mar) l acc).2
       = fold_left Z.min (map (priority_of h mar) l) (acc.2).
Proof.
  induction l as [ | b l IH ]; intros acc; simpl.
  - split; [ intros p; rewrite app_nil_r; reflexivity | reflexivity ].
  - destruct (IH (group_step h mar acc b)) as [Hmap Hmin]. split.
    + intros p. rewrite Hmap. unfold group_step at 1. simpl.
      rewrite lookup_total_insert.
      destruct (Z.eqb_spec (priority_of h mar b) p) as [-> | Hne].
      * rewrite decide_True by reflexivity. rewrite <- app_assoc. reflexivity.
      * rewrite decide_False by exact Hne. reflexivity.
    + rewrite Hmin. reflexivity.
Qed.

Lemma group_by_priority_bucket h mar l :
  (group_by_priority h mar l).1 !!! (group_by_priority h mar l).2
  = lowest_bucket h mar l.
Proof.
  unfold group_by_priority, lowest_bucket, best_priority_of.
  destruct (group_fold h mar l (∅, INT_MAX)) as [Hmap Hmin].
  rewrite Hmap, Hmin. simpl. rewrite lookup_total_empty. reflexivity.
Qed.

Lemma fold_min_le xs :
  forall a, fold_left Z.min xs a <= a
            /\ (forall x, In x xs -> fold_left Z.min xs a <= x)
            /\ (fold_left Z.min xs a = a \/ In (fold_left Z.min xs a) xs).
Proof.
  induction xs as [ | y xs IH ]; intros a; simpl.
  - repeat split; [ lia | contradiction | left; reflexivity ].
  - destruct (IH (Z.min a y)) as (Hle & Hall & Hin). repeat split.
    + lia.
    + intros x [<- | Hx]; [ lia | auto ].
    + destruct Hin as [Heq | Hin]; [ | right; right; exact Hin ].
      rewrite Heq. destruct (Z.min_spec a y) as [[_ ->] | [_ ->]]; auto.
Qed.

Lemma priority_of_values h mar b :
  priority_of h mar b = 1 \/ priority_of h mar b = 2 \/ priority_of h mar b = 13.
Proof.
  unfold priority_of.
  destruct (is_slave (h b) || is_master (h b) && mar);
    [ destruct (negb (in_use (h b) && has_session_commands (h b))) | ]; auto.
Qed.

Lemma best_priority_lower_bound h mar l b :
  b ∈ l -> best_priority_of h mar l <= priority_of h mar b.
Proof.
  intros Hb. unfold best_priority_of.
  destruct (fold_min_le (map (priority_of h mar) l) INT_MAX) as (_ & Hall & _).
  apply Hall. apply in_map. apply list_elem_of_In. exact Hb.
Qed.

Lemma lowest_bucket_elem h mar l b :
  b ∈ lowest_bucket h mar l <->
  b ∈ l /\ priority_of h mar b = best_priority_of h mar l.
Proof.
  unfold lowest_bucket, bucket_of.
  rewrite !list_elem_of_In, filter_In, Z.eqb_eq. reflexivity.
Qed.

Lemma std_find_spec l p :
  p ∈ l ->
  l !! std_find l p = Some p
  /\ forall j, (j < std_find l p)%nat -> l !! j <> Some p.
Proof.
  induction l as [ | x l IH ]; intros Hp.
  - apply elem_of_nil in Hp. contradiction.
  - simpl. destruct (Nat.eqb_spec x p) as [-> | Hne].
    + split; [ reflexivity | intros j Hj; lia ].
    + apply elem_of_cons in Hp as [-> | Hp]; [ congruence | ].
      destruct (IH Hp) as [Hfound Hfirst]. split; [ exact Hfound | ].
      intros [ | j ] Hj; simpl; [ congruence | apply Hfirst; lia ].
Qed.

Lemma find_best_backend_unfold backends select mar w :
  find_best_backend backends select mar w =
  match select (lowest_bucket (heap w) mar backends) w with
  | Ok (best, w') =>
      match lowest_bucket (heap w) mar backends !! best with
      | None => Err UndefinedBehaviour
      | Some p => Ok (std_find backends p, w')
      end
  | Err e => Err e
  end.
Proof.
  unfold find_best_backend, bind, get_heap.
  rewrite group_by_priority_bucket.
  destruct (select (lowest_bucket (heap w) mar backends) w) as [[best w'] | e];
    [ | reflexivity ].
  destruct (lowest_bucket (heap w) mar backends !! best); reflexivity.
Qed.

Lemma find_best_backend_ok backends select mar w idx w' :
  find_best_backend backends select mar w = Ok (idx, w') <->
  exists best b,
    select (lowest_bucket (heap w) mar backends) w = Ok (best, w')
    /\ lowest_bucket (heap w) mar backends !! best = Some b
    /\ idx = std_find backends b.
Proof.
  rewrite find_best_backend_unfold. split.
  - destruct (select (lowest_bucket (heap w) mar backends) w) as [[best w1] | e];
      [ | discriminate ].
    destruct (lowest_bucket (heap w) mar backends !! best) as [ p | ] eqn:Hp;
      [ | discriminate ].
    intros [= <- <-]. exists best, p. auto.
  - intros (best & b & -> & -> & ->). reflexivity.
Qed.

(** C4: a backend has priority 1 when it acts as a slave and is not busy,
    13 when it acts as a slave and is busy, and 2 otherwise;
    [find_best_backend] hands the selection function the bucket of the
    lowest priority present, and the position it returns is the first one
    of the original vector that holds the selected backend, whose
    priority no backend of the vector undercuts: when some backend has
    priority 1, the one returned has priority 1 as well. *)
Theorem find_best_backend_lowest_bucket :
  (forall h mar b,
     let acts_slave := is_slave (h b) || (is_master (h b) && mar) in
     let is_busy := in_use (h b) && has_session_commands (h b) in
     priority_of h mar b =
     if acts_slave && negb is_busy then 1
     else if acts_slave && is_busy then 13
     else 2)
  /\ (forall backends select mar w idx w',
        find_best_backend backends select mar w = Ok (idx, w') ->
        exists best b,
          select (lowest_bucket (heap w) mar backends) w = Ok (best, w')
          /\ lowest_bucket (heap w) mar backends !! best = Some b
          /\ backends !! idx = Some b
          /\ (forall j, (j < idx)%nat -> backends !! j <> Some b)
          /\ (forall b', b' ∈ backends ->
                priority_of (heap w) mar b <= priority_of (heap w) mar b')
          /\ ((exists b', b' ∈ backends /\ priority_of (heap w) mar b' = 1) ->
              priority_of (heap w) mar b = 1)).
Proof.
  split.
  - intros h mar b. unfold priority_of.
    destruct (is_slave (h b) || is_master (h b) && mar);
      destruct (in_use (h b) && has_session_commands (h b)); reflexivity.
  - intros backends select mar w idx w' Hfind.
    apply find_best_backend_ok in Hfind as (best & b & Hsel & Hb & ->).
    exists best, b.
    assert (Hin : b ∈ lowest_bucket (heap w) mar backends).
    { eapply list_elem_of_lookup_2. eassumption. }
    apply lowest_bucket_elem in Hin as [Hin Hprio].
    destruct (std_find_spec backends b Hin) as [Hfound Hfirst].
    assert (Hlow : forall b', b' ∈ backends ->
              priority_of (heap w) mar b <= priority_of (heap w) mar b').
    { intros b' Hb'. rewrite Hprio. apply best_priority_lower_bound. exact Hb'. }
    repeat split; try assumption.
    intros (b' & Hb' & H1). specialize (Hlow b' Hb').
    destruct (priority_of_values (heap w) mar b) as [ | [ | ]]; lia.
Qed.

(** C4, witness: in the first scenario the busy slave is left out, the
    two idle slaves compete, and position 1 of the vector is returned. *)
Lemma find_best_backend_scenario :
  exists best b,
    backend_cmp_router_conn (lowest_bucket scenario_heap false [0; 1; 2]%nat)
      scenario_world = Ok (best, scenario_world)
    /\ lowest_bucket scenario_heap false [0; 1; 2]%nat !! best = Some b
    /\ [0; 1; 2]%nat !! 1%nat = Some b
    /\ (forall j, (j < 1)%nat -> [0; 1; 2]%nat !! j <> Some b)
    /\ (forall b', b' ∈ [0; 1; 2]%nat ->
          priority_of scenario_heap false b <= priority_of scenario_heap false b')
    /\ ((exists b', b' ∈ [0; 1; 2]%nat /\ priority_of scenario_heap false b' = 1) ->
        priority_of scenario_heap false b = 1).
Proof.
  apply (proj2 find_best_backend_lowest_bucket [0; 1; 2]%nat
           backend_cmp_router_conn false scenario_world 1%nat scenario_world).
  vm_compute. reflexivity.
Defined.

Lemma find_best_backend_after_select backends select mar w best w' :
  select (lowest_bucket (heap w) mar backends) w = Ok (best, w') ->
  ((best < length (lowest_bucket (heap w) mar backends))%nat ->
   exists b,
     lowest_bucket (heap w) mar backends !! best = Some b
     /\ find_best_backend backends select mar w = Ok (std_find backends b, w')
     /\ backends !! std_find backends b = Some b)
  /\ ((length (lowest_bucket (heap w) mar backends) <= best)%nat ->
      find_best_backend backends select mar w = Err UndefinedBehaviour).
Proof.
  intros Hsel. rewrite find_best_backend_unfold, Hsel. split.
  - intros Hlt. destruct (lookup_lt_is_Some_2 _ _ Hlt) as [b Hb].
    exists b. rewrite Hb. repeat split.
    assert (Hin : b ∈ lowest_bucket (heap w) mar backends).
    { eapply list_elem_of_lookup_2. eassumption. }
    apply lowest_bucket_elem in Hin as [Hin _].
    apply std_find_spec. exact Hin.
  - intros Hge. rewrite (lookup_ge_None_2 _ _ Hge). reflexivity.
Qed.

Lemma lowest_bucket_nil h mar : lowest_bucket h mar [] = [].
Proof. reflexivity. Qed.

(** Two backends in use, both of weight zero. *)
Definition zero_weight_heap : Heap :=
  fun _ => example_slave (of_int 1) zero 0 true false.

Definition zero_weight_world : World :=
  {| heap := zero_weight_heap; draws := 0; connect_log := [] |}.

(** C9: [find_best_backend] dereferences the iterator of the selection
    function without a test.  With each of the five selection functions
    the empty vector leads to the dereference of [end()]; so does, under
    every policy but the adaptive one, a vector whose lowest bucket holds
    only servers of weight zero, in use or not.  The call is defined exactly when the selection on the
    lowest bucket returns a position inside the bucket, and its result
    is then a position of the original vector that holds the selected
    backend. *)
Theorem find_best_backend_partial :
  (forall z sc mar w,
     find_best_backend [] (get_backend_select_function z sc) mar w
     = Err UndefinedBehaviour)
  /\ (forall z sc mar backends w,
        sc <> ADAPTIVE_ROUTING ->
        (forall b, b ∈ lowest_bucket (heap w) mar backends ->
           eqb (server_weight (backend (heap w b))) zero = true) ->
        find_best_backend backends (get_backend_select_function z sc) mar w
        = Err UndefinedBehaviour)
  /\ (forall backends select mar w best w',
        select (lowest_bucket (heap w) mar backends) w = Ok (best, w') ->
        ((best < length (lowest_bucket (heap w) mar backends))%nat ->
         exists b,
           lowest_bucket (heap w) mar backends !! best = Some b
           /\ find_best_backend backends select mar w = Ok (std_find backends b, w')
           /\ backends !! std_find backends b = Some b)
        /\ ((length (lowest_bucket (heap w) mar backends) <= best)%nat ->
            find_best_backend backends select mar w = Err UndefinedBehaviour))
  /\ (forall backends select mar w idx w',
        find_best_backend backends select mar w = Ok (idx, w') ->
        exists best,
          select (lowest_bucket (heap w) mar backends) w = Ok (best, w')
          /\ (best < length (lowest_bucket (heap w) mar backends))%nat
          /\ (idx < length backends)%nat).
Proof.
  split; [ | split; [ | split ] ].
  - intros z sc mar w. rewrite find_best_backend_unfold, lowest_bucket_nil.
    destruct sc; reflexivity.
  - intros z sc mar backends w Hsc Hzero.
    destruct (policy_score sc) as [ score | ] eqn:Hp;
      [ | destruct sc; try discriminate; congruence ].
    rewrite find_best_backend_unfold.
    rewrite (non_adaptive_is_best_score z sc score _ w Hp).
    assert (Hnone : best_score (heap w) (lowest_bucket (heap w) mar backends) score
                    = length (lowest_bucket (heap w) mar backends)).
    { apply best_score_none_iff. intros b Hb.
      apply zero_weight_not_below; [ eapply policy_score_zero; eassumption | auto ]. }
    rewrite Hnone, lookup_ge_None_2 by lia. reflexivity.
  - intros backends select mar w best w'. apply find_best_backend_after_select.
  - intros backends select mar w idx w' Hfind.
    apply find_best_backend_ok in Hfind as (best & b & Hsel & Hb & ->).
    exists best. split; [ exact Hsel | ]. split.
    + eapply lookup_lt_Some. eassumption.
    + assert (Hin : b ∈ lowest_bucket (heap w) mar backends).
      { eapply list_elem_of_lookup_2. eassumption. }
      apply lowest_bucket_elem in Hin as [Hin _].
      destruct (std_find_spec backends b Hin) as [Hfound _].
      eapply lookup_lt_Some. eassumption.
Qed.

(** C9, witness: two servers of weight zero, both in use, under the
    least-router-connections policy: [best_score] returns [end()] on the
    non-empty bucket and the dereference is undefined; in the first
    scenario the selection returns position 1 of the bucket and the call
    is defined. *)
Lemma find_best_backend_partial_witness :
  find_best_backend [0; 1]%nat
    (get_backend_select_function (fun _ => zero) LEAST_ROUTER_CONNECTIONS)
    false zero_weight_world = Err UndefinedBehaviour
  /\ exists b,
       lowest_bucket scenario_heap false [0; 1; 2]%nat !! 1%nat = Some b
       /\ find_best_backend [0; 1; 2]%nat backend_cmp_router_conn false scenario_world
          = Ok (std_find [0; 1; 2]%nat b, scenario_world)
       /\ [0; 1; 2]%nat !! std_find [0; 1; 2]%nat b = Some b.
Proof.
  split.
  - apply (proj1 (proj2 find_best_backend_partial)).
    + discriminate.
    + intros b _. vm_compute. reflexivity.
  - apply (proj1 (proj1 (proj2 (proj2 find_best_backend_partial))
                   [0; 1; 2]%nat backend_cmp_router_conn false scenario_world
                   1%nat scenario_world ltac:(vm_compute; reflexivity))).
    vm_compute. lia.
Defined.

(* ================================================================== *)
(** * Properties of the session bring-up *)
(* ================================================================== *)

(** ** Vocabulary *)

(** The effect of a recorded call of [connect] on the heap, and of a
    sequence of them. *)
Definition replay_step (h : Heap) (c : ConnectCall) : Heap :=
  if cc_ok c then heap_set h (cc_backend c) (set_in_use (h (cc_backend c))) else h.

Definition replay (calls : list ConnectCall) (h : Heap) : Heap :=
  fold_left replay_step calls h.

(** The number of calls that succeeded. *)
Definition successes (calls : list ConnectCall) : nat :=
  length (List.filter cc_ok calls).

(** [n] increments of [*expected_responses], made only when a non-empty
    session-command list was supplied. *)
Definition bump (sescmd_list : option SessionCommandList) (n : nat)
    (expected_responses : option Z) : option Z :=
  if sescmd_nonempty sescmd_list
  then Nat.iter n (fun e => int_add e 1) <$> expected_responses
  else expected_responses.

(** The number of backends of the vector that can connect, are valid
    slaves for the master and are in use. *)
Definition connected_slaves (h : Heap) (backends : PRWBackends)
    (master : option BackendId) : nat :=
  length (List.filter
            (fun b => can_connect (h b) && valid_for_slave h b master && in_use (h b))
            backends).

(** A selection function that returns a position of the vector or
    [end()] and leaves the backends and the log alone. *)
Definition select_frame (select : BackendSelectFunction) : Prop :=
  forall l w, exists i w',
    select l w = Ok (i, w')
    /\ (i <= length l)%nat
    /\ heap w' = heap w
    /\ connect_log w' = connect_log w.

(** [b] is the first backend of the vector that is a master. *)
Definition first_master (h : Heap) (backends : PRWBackends) (b : BackendId) : Prop :=
  exists i, backends !! i = Some b
    /\ is_master (h b) = true
    /\ forall j b', (j < i)%nat -> backends !! j = Some b' -> is_master (h b') = false.

Definition no_master (h : Heap) (backends : PRWBackends) : Prop :=
  forall b, b ∈ backends -> is_master (h b) = false.

(** ** The selection functions *)

Lemma get_backend_select_function_frame z sc :
  select_frame (get_backend_select_function z sc).
Proof.
  intros l w. destruct sc; simpl;
    try (eexists _, w; split; [ reflexivity | ];
         split; [ apply best_score_le_length | split; reflexivity ]).
  eexists _, _. split; [ reflexivity | ].
  split; [ apply roulette_winner_le_length | split; reflexivity ].
Qed.

(** ** [get_root_master] *)

Lemma get_root_master_none h backends :
  get_root_master h backends = None <-> no_master h backends.
Proof.
  unfold no_master. induction backends as [ | c rest IH ]; simpl.
  - split; [ intros _ b Hb; apply elem_of_nil in Hb; contradiction | reflexivity ].
  - destruct (is_master (h c)) eqn:E.
    + split; [ discriminate | ].
      intros Hall. rewrite (Hall c) in E by apply list_elem_of_here. discriminate.
    + rewrite IH. split.
      * intros Hall b Hb. apply elem_of_cons in Hb as [-> | Hb]; auto.
      * intros Hall b Hb. apply Hall. apply list_elem_of_further. exact Hb.
Qed.

Lemma get_root_master_some h backends m :
  get_root_master h backends = Some m <-> first_master h backends m.
Proof.
  unfold first_master. induction backends as [ | c rest IH ]; simpl.
  - split; [ discriminate | intros (i & Hi & _); discriminate ].
  - destruct (is_master (h c)) eqn:E.
    + split.
      * intros [= <-]. exists 0%nat. repeat split; [ exact E | intros; lia ].
      * intros ([ | i ] & Hi & Hm & Hfirst); simpl in Hi; [ congruence | ].
        specialize (Hfirst 0%nat c ltac:(lia) eq_refl). congruence.
    + rewrite IH. split.
      * intros (i & Hi & Hm & Hfirst). exists (S i). repeat split; try assumption.
        intros [ | j ] b' Hj Hb'; simpl in Hb'; [ congruence | ].
        eapply Hfirst; [ | eassumption ]. lia.
      * intros ([ | i ] & Hi & Hm & Hfirst); simpl in Hi; [ congruence | ].
        exists i. repeat split; try assumption.
        intros j b' Hj Hb'. apply (Hfirst (S j) b'); [ lia | exact Hb' ].
Qed.

(** ** Replaying the log *)

Lemma successes_cons c calls :
  successes (c :: calls) = ((if cc_ok c then 1 else 0) + successes calls)%nat.
Proof. unfold successes. simpl. destruct (cc_ok c); reflexivity. Qed.

Lemma successes_le_length calls : (successes calls <= length calls)%nat.
Proof. unfold successes. apply filter_length_le. Qed.

Lemma bump_0 sescmd_list e : bump sescmd_list 0 e = e.
Proof.
  unfold bump. destruct (sescmd_nonempty sescmd_list); [ | reflexivity ].
  destruct e; reflexivity.
Qed.

Lemma bump_step sescmd_list (ok : bool) n e :
  bump sescmd_list n
    (if ok && sescmd_nonempty sescmd_list
     then (fun e => int_add e 1) <$> e else e)
  = bump sescmd_list ((if ok then 1 else 0) + n) e.
Proof.
  unfold bump. destruct (sescmd_nonempty sescmd_list); destruct ok; simpl;
    try reflexivity.
  destruct e as [ e | ]; simpl; [ | reflexivity ].
  f_equal. symmetry. apply (Nat.iter_succ_r n (fun e => int_add e 1)).
Qed.

Section BringupProperties.

Variable zero_to_one_exclusive : nat -> double.
Variable connect_succeeds : World -> BackendId -> bool.

(** ** The top-up loop *)

(** The world after [connect] on [b]. *)
Definition after_connect (w : World) (b : BackendId)
    (sescmd_list : option SessionCommandList) (as_slave : bool) : World :=
  {| heap := if connect_succeeds w b
             then heap_set (heap w) b (set_in_use (heap w b)) else heap w;
     draws := draws w;
     connect_log := connect_log w ++
       [{| cc_backend := b; cc_sescmd := sescmd_list;
           cc_slave := as_slave; cc_ok := connect_succeeds w b |}] |}.

Lemma after_connect_heap w b sescmd_list as_slave :
  heap (after_connect w b sescmd_list as_slave)
  = replay_step (heap w)
      {| cc_backend := b; cc_sescmd := sescmd_list;
         cc_slave := as_slave; cc_ok := connect_succeeds w b |}.
Proof. unfold after_connect, replay_step. simpl. reflexivity. Qed.

(** One round of the loop. *)
Lemma topup_loop_unfold fuel select sescmd_list max_nslaves slaves_connected
    candidates expected_responses w :
  topup_loop connect_succeeds (S fuel) select sescmd_list max_nslaves
    slaves_connected candidates expected_responses w
  = if (slaves_connected <? max_nslaves) && negb (Nat.eqb (length candidates) 0)
    then
      match select candidates w with
      | Ok (ite, w1) =>
          if Nat.eqb ite (length candidates) then Ok (expected_responses, w1)
          else
            match candidates !! ite with
            | None => Err UndefinedBehaviour
            | Some b =>
                let ok := connect_succeeds w1 b in
                topup_loop connect_succeeds fuel select sescmd_list max_nslaves
                  (if ok then int_add slaves_connected 1 else slaves_connected)
                  (delete ite candidates)
                  (if ok && sescmd_nonempty sescmd_list
                   then (fun e => int_add e 1) <$> expected_responses
                   else expected_responses)
                  (after_connect w1 b sescmd_list true)
            end
      | Err e => Err e
      end
    else Ok (expected_responses, w).
Proof.
  simpl. destruct ((slaves_connected <? max_nslaves)
                   && negb (Nat.eqb (length candidates) 0)); [ | reflexivity ].
  unfold bind. destruct (select candidates w) as [[ite w1] | e]; [ | reflexivity ].
  destruct (Nat.eqb ite (length candidates)); [ reflexivity | ].
  destruct (candidates !! ite); reflexivity.
Qed.

Lemma topup_loop_stop fuel select sescmd_list max_nslaves slaves_connected
    candidates expected_responses w :
  (slaves_connected <? max_nslaves) && negb (Nat.eqb (length candidates) 0) = false ->
  topup_loop connect_succeeds fuel select sescmd_list max_nslaves
    slaves_connected candidates expected_responses w
  = Ok (expected_responses, w).
Proof. intros Hc. destruct fuel; simpl; rewrite Hc; reflexivity. Qed.

(** The loop needs no more fuel than there are candidates: with that
    much, more fuel changes nothing. *)
Lemma topup_loop_fuel select sescmd_list max_nslaves :
  forall fuel1 fuel2 slaves_connected candidates expected_responses w,
    (length candidates <= fuel1)%nat ->
    (length candidates <= fuel2)%nat ->
    topup_loop connect_succeeds fuel1 select sescmd_list max_nslaves
      slaves_connected candidates expected_responses w
    = topup_loop connect_succeeds fuel2 select sescmd_list max_nslaves
        slaves_connected candidates expected_responses w.
Proof.
  induction fuel1 as [ | fuel1 IH ];
    intros fuel2 sc cands e w H1 H2.
  - destruct cands; [ | simpl in H1; lia ].
    rewrite !topup_loop_stop; [ reflexivity | | ]; simpl; apply andb_false_r.
  - destruct ((sc <? max_nslaves) && negb (Nat.eqb (length cands) 0)) eqn:Hc;
      [ | rewrite !topup_loop_stop by exact Hc; reflexivity ].
    destruct fuel2 as [ | fuel2 ].
    { destruct cands; [ | simpl in H2; lia ].
      simpl in Hc. rewrite andb_false_r in Hc. discriminate. }
    rewrite !topup_loop_unfold, Hc.
    destruct (select cands w) as [[ite w1] | err]; [ | reflexivity ].
    destruct (Nat.eqb ite (length cands)); [ reflexivity | ].
    destruct (cands !! ite) as [ b | ] eqn:Hb; [ | reflexivity ].
    cbv zeta. apply lookup_lt_Some in Hb.
    apply IH; rewrite length_delete by (apply lookup_lt_is_Some_2; exact Hb); lia.
Qed.

Lemma topup_loop_run select sescmd_list max_nslaves :
  select_frame select ->
  forall fuel slaves_connected candidates expected_responses w,
    (length candidates <= fuel)%nat ->
    exists calls w',
      topup_loop connect_succeeds fuel select sescmd_list max_nslaves
        slaves_connected candidates expected_responses w
      = Ok (bump sescmd_list (successes calls) expected_responses, w')
      /\ heap w' = replay calls (heap w)
      /\ connect_log w' = connect_log w ++ calls
      /\ Forall (fun c => cc_slave c = true /\ cc_sescmd c = sescmd_list) calls
      /\ map cc_backend calls ⊆+ candidates
      /\ (max_nslaves <= slaves_connected -> calls = [])
      /\ (INT_MIN <= slaves_connected -> max_nslaves <= INT_MAX ->
          Z.of_nat (successes calls) <= Z.max 0 (max_nslaves - slaves_connected)).
Proof.
  intros Hsel.
  assert (Hstop : forall fuel sc cands e w,
    (sc <? max_nslaves) && negb (Nat.eqb (length cands) 0) = false ->
    (max_nslaves <= sc -> @nil ConnectCall = []) ->
    exists calls w',
      topup_loop connect_succeeds fuel select sescmd_list max_nslaves sc cands e w
      = Ok (bump sescmd_list (successes calls) e, w')
      /\ heap w' = replay calls (heap w)
      /\ connect_log w' = connect_log w ++ calls
      /\ Forall (fun c => cc_slave c = true /\ cc_sescmd c = sescmd_list) calls
      /\ map cc_backend calls ⊆+ cands
      /\ (max_nslaves <= sc -> calls = [])
      /\ (INT_MIN <= sc -> max_nslaves <= INT_MAX ->
          Z.of_nat (successes calls) <= Z.max 0 (max_nslaves - sc))).
  { intros fuel sc cands e w Hc _. exists [], w.
    rewrite topup_loop_stop by exact Hc. rewrite bump_0, app_nil_r.
    repeat split; auto; try apply submseteq_nil_l.
    intros _ _. unfold successes. simpl. lia. }
  induction fuel as [ | fuel IH ]; intros sc cands e w Hlen.
  - apply Hstop; [ | reflexivity ].
    destruct cands; [ simpl; apply andb_false_r | simpl in Hlen; lia ].
  - destruct ((sc <? max_nslaves) && negb (Nat.eqb (length cands) 0)) eqn:Hc;
      [ | apply Hstop; [ exact Hc | reflexivity ] ].
    apply andb_true_iff in Hc as Hc'. destruct Hc' as [Hlt Hne].
    apply Z.ltb_lt in Hlt.
    rewrite topup_loop_unfold, Hc.
    destruct (Hsel cands w) as (ite & w1 & Hs & Hite & Hheap1 & Hlog1).
    rewrite Hs.
    destruct (Nat.eqb_spec ite (length cands)) as [ -> | Hnot_end ].
    { exists [], w1. rewrite bump_0, app_nil_r.
      repeat split; auto; try apply submseteq_nil_l.
      intros _ _. unfold successes. simpl. lia. }
    assert (Hin : (ite < length cands)%nat) by lia.
    destruct (lookup_lt_is_Some_2 _ _ Hin) as [b Hb]. rewrite Hb. cbv zeta.
    set (ok := connect_succeeds w1 b).
    set (c := {| cc_backend := b; cc_sescmd := sescmd_list;
                 cc_slave := true; cc_ok := ok |}).
    destruct (IH (if ok then int_add sc 1 else sc) (delete ite cands)
                (if ok && sescmd_nonempty sescmd_list
                 then (fun e => int_add e 1) <$> e else e)
                (after_connect w1 b sescmd_list true))
      as (calls & w' & Hrun & Hheap & Hlog & Hall & Hsub & _ & Hquota).
    { rewrite length_delete by (eexists; exact Hb). lia. }
    exists (c :: calls), w'.
    rewrite Hrun, bump_step, successes_cons. simpl cc_ok.
    split; [ reflexivity | ]. split.
    { rewrite Hheap, after_connect_heap, Hheap1. reflexivity. }
    split.
    { rewrite Hlog. simpl. rewrite Hlog1, <- app_assoc. reflexivity. }
    split.
    { constructor; [ split; reflexivity | exact Hall ]. }
    split.
    { simpl. rewrite (delete_Permutation cands ite b Hb).
      apply submseteq_skip. exact Hsub. }
    split; [ intros; lia | ].
    intros Hmin Hmax.
    assert (Hsc : (if ok then int_add sc 1 else sc) = if ok then sc + 1 else sc).
    { destruct ok; [ | reflexivity ]. apply int_add_no_overflow. lia. }
    rewrite Hsc in Hquota. destruct ok.
    + specialize (Hquota ltac:(lia) Hmax). lia.
    + specialize (Hquota Hmin Hmax). lia.
Qed.

(** ** The master loop *)

Lemma connect_master_run rest master current_master w :
  exists calls w',
    connect_master connect_succeeds rest master current_master w
    = Ok (match calls with
          | [c] => if cc_ok c then Some (cc_backend c) else current_master
          | _ => current_master
          end, w')
    /\ heap w' = replay calls (heap w)
    /\ connect_log w' = connect_log w ++ calls
    /\ (length calls <= 1)%nat
    /\ Forall (fun c => Some (cc_backend c) = master /\ cc_slave c = false
                        /\ cc_sescmd c = None
                        /\ can_connect (heap w (cc_backend c)) = true
                        /\ cc_backend c ∈ rest) calls.
Proof.
  induction rest as [ | b rest IH ]; simpl.
  - exists [], w. rewrite app_nil_r. repeat split; auto.
  - unfold bind, get_heap.
    destruct (can_connect (heap w b)) eqn:Hcan; simpl.
    + destruct master as [ m | ].
      * destruct (Nat.eqb_spec b m) as [ -> | Hne ].
        -- unfold connect.
           exists [{| cc_backend := m; cc_sescmd := None; cc_slave := false;
                      cc_ok := connect_succeeds w m |}],
                  (after_connect w m None false).
           simpl. split;
             [ unfold after_connect, ret; destruct (connect_succeeds w m); reflexivity | ].
           split; [ apply after_connect_heap | ].
           repeat split; auto.
           constructor; [ | constructor ]. simpl.
           repeat split; auto. apply list_elem_of_here.
        -- destruct IH as (calls & w' & Hrun & Hheap & Hlog & Hlen & Hall).
           exists calls, w'. repeat split; auto.
           eapply Forall_impl; [ exact Hall | ]. simpl.
           intros c (? & ? & ? & ? & ?). repeat split; auto.
           apply list_elem_of_further. assumption.
      * destruct IH as (calls & w' & Hrun & Hheap & Hlog & Hlen & Hall).
        exists calls, w'. repeat split; auto.
        eapply Forall_impl; [ exact Hall | ]. simpl.
        intros c (? & ? & ? & ? & ?). repeat split; auto.
        apply list_elem_of_further. assumption.
    + destruct IH as (calls & w' & Hrun & Hheap & Hlog & Hlen & Hall).
      exists calls, w'. repeat split; auto.
      eapply Forall_impl; [ exact Hall | ]. simpl.
      intros c (? & ? & ? & ? & ?). repeat split; auto.
      apply list_elem_of_further. assumption.
Qed.

(** ** The whole call *)

(** The master-failure gate. *)
Definition master_gate (rt : RWSplit) (h : Heap) (backends : PRWBackends) : bool :=
  master_unusable h (get_root_master h backends)
  && bool_decide (master_failure_mode (config rt) = RW_FAIL_INSTANTLY).

Lemma scbs_gate rt backends current_master sescmd_list expected_responses type w :
  master_gate rt (heap w) backends = true ->
  select_connect_backend_servers zero_to_one_exclusive connect_succeeds rt backends
    current_master sescmd_list expected_responses type w
  = Ok ({| rval := false; out_master := current_master;
           out_expected := expected_responses |}, w).
Proof.
  unfold master_gate, select_connect_backend_servers, bind, get_heap.
  intros ->. reflexivity.
Qed.

Lemma scbs_run rt backends current_master sescmd_list expected_responses type w :
  master_gate rt (heap w) backends = false ->
  let master := get_root_master (heap w) backends in
  exists mcalls scalls w',
    select_connect_backend_servers zero_to_one_exclusive connect_succeeds rt backends
      current_master sescmd_list expected_responses type w
    = Ok ({| rval := true;
             out_master :=
               match mcalls with
               | [c] => if cc_ok c then Some (cc_backend c) else current_master
               | _ => current_master
               end;
             out_expected := bump sescmd_list (successes scalls) expected_responses |},
          w')
    /\ heap w' = replay scalls (replay mcalls (heap w))
    /\ connect_log w' = connect_log w ++ mcalls ++ scalls
    /\ (type = SLAVE -> mcalls = [])
    /\ (length mcalls <= 1)%nat
    /\ Forall (fun c => Some (cc_backend c) = master /\ cc_slave c = false
                        /\ cc_sescmd c = None
                        /\ can_connect (heap w (cc_backend c)) = true
                        /\ cc_backend c ∈ backends) mcalls
    /\ Forall (fun c => cc_slave c = true /\ cc_sescmd c = sescmd_list) scalls
    /\ map cc_backend scalls
       ⊆+ slave_candidates (replay mcalls (heap w)) backends master
    /\ (max_slave_count rt
        <= (get_slave_counts (replay mcalls (heap w)) backends master).2 ->
        scalls = [])
    /\ (INT_MIN <= (get_slave_counts (replay mcalls (heap w)) backends master).2 ->
        max_slave_count rt <= INT_MAX ->
        Z.of_nat (successes scalls)
        <= Z.max 0 (max_slave_count rt
                    - (get_slave_counts (replay mcalls (heap w)) backends master).2)).
Proof.
  intros Hgate master.
  unfold master_gate in Hgate.
  unfold select_connect_backend_servers, bind, get_heap. rewrite Hgate.
  fold master.
  assert (Hm : exists mcalls w1,
    (if bool_decide (type = ALL)
     then connect_master connect_succeeds backends master current_master
     else ret current_master) w
    = Ok (match mcalls with
          | [c] => if cc_ok c then Some (cc_backend c) else current_master
          | _ => current_master
          end, w1)
    /\ heap w1 = replay mcalls (heap w)
    /\ connect_log w1 = connect_log w ++ mcalls
    /\ (type = SLAVE -> mcalls = [])
    /\ (length mcalls <= 1)%nat
    /\ Forall (fun c => Some (cc_backend c) = master /\ cc_slave c = false
                        /\ cc_sescmd c = None
                        /\ can_connect (heap w (cc_backend c)) = true
                        /\ cc_backend c ∈ backends) mcalls).
  { destruct type; simpl.
    - destruct (connect_master_run backends master current_master w)
        as (calls & w1 & Hrun & Hheap & Hlog & Hlen & Hall).
      exists calls, w1. repeat split; auto. discriminate.
    - exists [], w. rewrite app_nil_r. repeat split; auto. }
  destruct Hm as (mcalls & w1 & Hrun1 & Hheap1 & Hlog1 & Htype & Hlen1 & Hall1).
  rewrite Hrun1. rewrite Hheap1.
  destruct (topup_loop_run
              (backend_select_fct zero_to_one_exclusive (config rt))
              sescmd_list (max_slave_count rt)
              (get_backend_select_function_frame _ _)
              (length (slave_candidates (replay mcalls (heap w)) backends master))
              (get_slave_counts (replay mcalls (heap w)) backends master).2
              (slave_candidates (replay mcalls (heap w)) backends master)
              expected_responses w1 (Nat.le_refl _))
    as (scalls & w' & Hrun2 & Hheap2 & Hlog2 & Hall2 & Hsub & Hnone & Hquota).
  rewrite Hrun2.
  exists mcalls, scalls, w'. split; [ reflexivity | ].
  split; [ rewrite Hheap2, Hheap1; reflexivity | ].
  split; [ rewrite Hlog2, Hlog1, <- app_assoc; reflexivity | ].
  repeat split; auto.
Qed.

(** ** The heap after the calls *)

(** The flags of a backend that [connect] leaves alone. *)
Definition same_roles (a b : RWBackend) : Prop :=
  is_master a = is_master b /\ is_slave a = is_slave b
  /\ is_relay a = is_relay b /\ can_connect a = can_connect b
  /\ has_session_commands a = has_session_commands b.

Lemma same_roles_refl a : same_roles a a.
Proof. repeat split. Qed.

Lemma replay_step_roles h c b : same_roles (replay_step h c b) (h b).
Proof.
  unfold replay_step, heap_set. destruct (cc_ok c); [ | apply same_roles_refl ].
  destruct (Nat.eqb_spec b (cc_backend c)) as [ -> | _ ]; repeat split.
Qed.

Lemma replay_roles calls : forall h b, same_roles (replay calls h b) (h b).
Proof.
  induction calls as [ | c calls IH ]; intros h b; simpl.
  - apply same_roles_refl.
  - destruct (IH (replay_step h c) b) as (H1 & H2 & H3 & H4 & H5).
    destruct (replay_step_roles h c b) as (G1 & G2 & G3 & G4 & G5).
    unfold replay in *. repeat split; congruence.
Qed.

Lemma replay_untouched calls :
  forall h b,
    Forall (fun c => cc_backend c <> b) calls -> replay calls h b = h b.
Proof.
  induction calls as [ | c calls IH ]; intros h b Hall; simpl; [ reflexivity | ].
  apply Forall_cons in Hall as [Hc Hall].
  unfold replay in *. rewrite IH by exact Hall.
  unfold replay_step, heap_set. destruct (cc_ok c); [ | reflexivity ].
  destruct (Nat.eqb_spec b (cc_backend c)); congruence.
Qed.

Lemma valid_for_slave_roles h h' b master :
  same_roles (h' b) (h b) ->
  valid_for_slave h' b master = valid_for_slave h b master.
Proof.
  intros (_ & Hs & Hr & _). unfold valid_for_slave. rewrite Hs, Hr. reflexivity.
Qed.

(** Heaps that agree on the valid slaves of a vector give the same
    counts and candidates. *)
Definition agree_on_slaves (h h' : Heap) (backends : PRWBackends)
    (master : option BackendId) : Prop :=
  forall b, b ∈ backends ->
    same_roles (h' b) (h b)
    /\ (valid_for_slave h b master = true -> h' b = h b).

Lemma slave_candidates_agree h h' backends master :
  agree_on_slaves h h' backends master ->
  slave_candidates h' backends master = slave_candidates h backends master.
Proof.
  intros Hag. unfold slave_candidates. apply filter_ext_in. intros b Hb.
  apply list_elem_of_In in Hb. destruct (Hag b Hb) as [Hroles Hsame].
  rewrite (valid_for_slave_roles h h' b master Hroles).
  destruct (valid_for_slave h b master) eqn:Hv.
  - rewrite Hsame by reflexivity. reflexivity.
  - rewrite !andb_false_r. reflexivity.
Qed.

Lemma connected_slaves_agree h h' backends master :
  agree_on_slaves h h' backends master ->
  connected_slaves h' backends master = connected_slaves h backends master.
Proof.
  intros Hag. unfold connected_slaves. f_equal. apply filter_ext_in. intros b Hb.
  apply list_elem_of_In in Hb. destruct (Hag b Hb) as [Hroles Hsame].
  rewrite (valid_for_slave_roles h h' b master Hroles).
  destruct (valid_for_slave h b master) eqn:Hv.
  - rewrite Hsame by reflexivity. reflexivity.
  - rewrite !andb_false_r. reflexivity.
Qed.

Lemma get_slave_counts_agree h h' backends master :
  agree_on_slaves h h' backends master ->
  get_slave_counts h' backends master = get_slave_counts h backends master.
Proof.
  unfold get_slave_counts. generalize (0, 0).
  induction backends as [ | b rest IH ]; intros acc Hag; simpl; [ reflexivity | ].
  assert (Hstep : count_step h' master acc b = count_step h master acc b).
  { destruct (Hag b (list_elem_of_here _ _)) as [Hroles Hsame].
    unfold count_step. rewrite (valid_for_slave_roles h h' b master Hroles).
    destruct (valid_for_slave h b master) eqn:Hv.
    - rewrite Hsame by reflexivity. reflexivity.
    - rewrite !andb_false_r. reflexivity. }
  rewrite Hstep. apply IH. intros x Hx. apply Hag.
  apply list_elem_of_further. exact Hx.
Qed.

(** The calls of the master loop touch the master alone, which is no
    valid slave. *)
Lemma master_calls_agree h backends master mcalls :
  Forall (fun c => Some (cc_backend c) = master) mcalls ->
  agree_on_slaves h (replay mcalls h) backends master.
Proof.
  intros Hall b _. split; [ apply replay_roles | ].
  intros Hv. apply replay_untouched.
  eapply Forall_impl; [ exact Hall | ]. simpl. intros c Hc Heq.
  unfold valid_for_slave in Hv. rewrite <- Hc, Heq, Nat.eqb_refl in Hv.
  rewrite andb_false_r in Hv. discriminate.
Qed.

(** The counter of [get_slave_counts] is the number of connected slaves
    as long as that number is an [int]. *)
Lemma count_fold h master l :
  forall acc : Z * Z,
    INT_MIN <= acc.2 ->
    acc.2 + Z.of_nat (connected_slaves h l master) <= INT_MAX ->
    (fold_left (count_step h master) l acc).2
    = acc.2 + Z.of_nat (connected_slaves h l master).
Proof.
  unfold connected_slaves.
  induction l as [ | b l IH ]; intros acc Hmin Hmax; simpl in *; [ lia | ].
  unfold count_step at 2.
  destruct (can_connect (h b) && valid_for_slave h b master); simpl in *;
    [ | apply IH; assumption ].
  destruct (in_use (h b)); simpl in *.
  - rewrite IH; simpl.
    + rewrite int_add_no_overflow; lia.
    + rewrite int_add_no_overflow; lia.
    + rewrite int_add_no_overflow; lia.
  - rewrite IH; simpl; lia.
Qed.

Lemma get_slave_counts_connected h backends master :
  Z.of_nat (connected_slaves h backends master) <= INT_MAX ->
  (get_slave_counts h backends master).2
  = Z.of_nat (connected_slaves h backends master).
Proof.
  intros Hmax. unfold get_slave_counts.
  rewrite count_fold; simpl; unfold INT_MIN; lia.
Qed.

Lemma connected_slaves_le_length h backends master :
  (connected_slaves h backends master <= length backends)%nat.
Proof. unfold connected_slaves. apply filter_length_le. Qed.

Lemma slave_candidates_elem h backends master b :
  b ∈ slave_candidates h backends master <->
  b ∈ backends /\ in_use (h b) = false /\ can_connect (h b) = true
  /\ valid_for_slave h b master = true.
Proof.
  unfold slave_candidates. rewrite !list_elem_of_In, filter_In.
  rewrite !andb_true_iff, negb_true_iff. tauto.
Qed.

(** A successful [connect] on a candidate adds one connected slave. *)
Lemma connected_slaves_set_in_use h master b :
  forall backends,
    NoDup backends ->
    b ∈ slave_candidates h backends master ->
    connected_slaves (heap_set h b (set_in_use (h b))) backends master
    = S (connected_slaves h backends master).
Proof.
  set (h' := heap_set h b (set_in_use (h b))).
  assert (Hother : forall x, x <> b -> h' x = h x).
  { intros x Hx. unfold h', heap_set. destruct (Nat.eqb_spec x b); congruence. }
  assert (Hself : h' b = set_in_use (h b)).
  { unfold h', heap_set. rewrite Nat.eqb_refl. reflexivity. }
  unfold connected_slaves.
  induction backends as [ | x rest IH ]; intros Hnd Hb.
  - apply slave_candidates_elem in Hb as [Hb _]. apply elem_of_nil in Hb. contradiction.
  - apply NoDup_cons in Hnd as [Hx Hnd]. simpl.
    destruct (Nat.eq_dec x b) as [ -> | Hne ].
    + apply slave_candidates_elem in Hb as (_ & Huse & Hcan & Hv).
      assert (Hv' : valid_for_slave h' b master = true).
      { unfold valid_for_slave in *. rewrite Hself. exact Hv. }
      rewrite Hv', Hv, Hself, Huse, Hcan. simpl. rewrite Hcan. simpl.
      f_equal. f_equal. apply filter_ext_in. intros y Hy.
      apply list_elem_of_In in Hy.
      assert (y <> b) by congruence.
      unfold valid_for_slave. rewrite Hother by assumption. reflexivity.
    + assert (Hbr : b ∈ slave_candidates h rest master).
      { apply slave_candidates_elem in Hb as (Hb & Hrest).
        apply slave_candidates_elem. split; [ | exact Hrest ].
        apply elem_of_cons in Hb as [ -> | Hb ]; [ congruence | exact Hb ]. }
      assert (Hpx : can_connect (h' x) && valid_for_slave h' x master && in_use (h' x)
                    = can_connect (h x) && valid_for_slave h x master && in_use (h x)).
      { unfold valid_for_slave. rewrite (Hother x Hne). reflexivity. }
      rewrite Hpx.
      destruct (can_connect (h x) && valid_for_slave h x master && in_use (h x));
        simpl; rewrite (IH Hnd Hbr); reflexivity.
Qed.

Lemma connected_slaves_replay backends master :
  NoDup backends ->
  forall calls h,
    NoDup (map cc_backend calls) ->
    Forall (fun c => cc_backend c ∈ slave_candidates h backends master) calls ->
    connected_slaves (replay calls h) backends master
    = (connected_slaves h backends master + successes calls)%nat.
Proof.
  intros Hnd. induction calls as [ | c calls IH ]; intros h Hcalls Hall.
  - unfold successes. simpl. lia.
  - simpl in Hcalls. apply NoDup_cons in Hcalls as [Hfresh Hcalls].
    apply Forall_cons in Hall as [Hc Hall].
    rewrite successes_cons. change (replay (c :: calls) h)
      with (replay calls (replay_step h c)).
    unfold replay_step. destruct (cc_ok c) eqn:Hok.
    + rewrite IH; [ | exact Hcalls | ].
      * rewrite (connected_slaves_set_in_use h master (cc_backend c) backends Hnd Hc).
        lia.
      * apply Forall_forall. intros c' Hc'.
        rewrite Forall_forall in Hall. specialize (Hall c' Hc').
        assert (Hne : cc_backend c' <> cc_backend c).
        { intros Heq. apply Hfresh. rewrite <- Heq.
          apply list_elem_of_In. apply in_map. apply list_elem_of_In. exact Hc'. }
        apply slave_candidates_elem in Hall as (Hb & Huse & Hcan & Hv).
        apply slave_candidates_elem. unfold valid_for_slave, heap_set in *.
        destruct (Nat.eqb_spec (cc_backend c') (cc_backend c)); [ congruence | ].
        auto.
    + rewrite IH; [ lia | exact Hcalls | exact Hall ].
Qed.

Lemma submseteq_NoDup_l {A} (l1 l2 : list A) : l1 ⊆+ l2 -> NoDup l2 -> NoDup l1.
Proof.
  intros Hsub Hnd. apply submseteq_Permutation in Hsub as [k Hk].
  rewrite Hk in Hnd. apply NoDup_app in Hnd as [H1 _]. exact H1.
Qed.

Lemma slave_candidates_NoDup h backends master :
  NoDup backends -> NoDup (slave_candidates h backends master).
Proof.
  intros Hnd. unfold slave_candidates. apply NoDup_ListNoDup.
  apply List.NoDup_filter. apply NoDup_ListNoDup. exact Hnd.
Qed.

Lemma master_gate_spec rt h backends :
  master_gate rt h backends = true <->
  (no_master h backends
   \/ exists m, first_master h backends m /\ can_connect (h m) = false)
  /\ master_failure_mode (config rt) = RW_FAIL_INSTANTLY.
Proof.
  unfold master_gate. rewrite andb_true_iff, bool_decide_eq_true.
  apply and_iff_compat_r. unfold master_unusable.
  destruct (get_root_master h backends) as [ m | ] eqn:E.
  - rewrite negb_true_iff. split.
    + intros Hc. right. exists m. split; [ | exact Hc ].
      apply get_root_master_some. exact E.
    + intros [Hn | (m' & Hm' & Hc)].
      * apply get_root_master_none in Hn. congruence.
      * apply get_root_master_some in Hm'. congruence.
  - split; [ | reflexivity ]. intros _. left.
    apply get_root_master_none. exact E.
Qed.

(** C1: the call returns [false] exactly when the vector has no master,
    or the first master of the vector cannot connect, and the failure
    mode is [RW_FAIL_INSTANTLY]; that return leaves the backends, the
    random engine, the log of [connect] and both out-parameters as they
    were; every other call returns [true], whatever the candidates and
    the quota. *)
Theorem master_failure_gate :
  forall rt backends current_master sescmd_list expected_responses type w,
  exists out w',
    select_connect_backend_servers zero_to_one_exclusive connect_succeeds rt
      backends current_master sescmd_list expected_responses type w
    = Ok (out, w')
    /\ (rval out = false <->
        (no_master (heap w) backends
         \/ exists m, first_master (heap w) backends m
                      /\ can_connect (heap w m) = false)
        /\ master_failure_mode (config rt) = RW_FAIL_INSTANTLY)
    /\ (rval out = false ->
        w' = w /\ out_master out = current_master
        /\ out_expected out = expected_responses)
    /\ rval out = negb (master_gate rt (heap w) backends).
Proof.
  intros rt backends cm sescmd e type w.
  destruct (master_gate rt (heap w) backends) eqn:Hgate.
  - eexists _, w. split; [ apply scbs_gate; exact Hgate | ]. simpl.
    rewrite <- master_gate_spec, Hgate. repeat split; auto.
  - destruct (scbs_run rt backends cm sescmd e type w Hgate)
      as (mcalls & scalls & w' & Hrun & _).
    eexists _, w'. split; [ exact Hrun | ]. simpl.
    rewrite <- master_gate_spec, Hgate.
    repeat split; auto; discriminate.
Qed.

Lemma filter_slave_calls mcalls scalls :
  Forall (fun c => cc_slave c = false) mcalls ->
  Forall (fun c => cc_slave c = true) scalls ->
  List.filter cc_slave (mcalls ++ scalls) = scalls.
Proof.
  intros Hm Hs. rewrite List.filter_app.
  assert (H1 : List.filter cc_slave mcalls = []).
  { induction Hm as [ | c l Hc _ IH ]; simpl; [ reflexivity | ].
    rewrite Hc. exact IH. }
  assert (H2 : List.filter cc_slave scalls = scalls).
  { induction Hs as [ | c l Hc _ IH ]; simpl; [ reflexivity | ].
    rewrite Hc, IH. reflexivity. }
  rewrite H1, H2. reflexivity.
Qed.

Lemma int_wrap_small z : INT_MIN <= z <= INT_MAX -> int_wrap z = z.
Proof.
  unfold int_wrap, INT_MIN, INT_MAX. intros H. rewrite Z.mod_small; lia.
Qed.

Lemma iter_int_add n :
  Nat.iter n (fun e => int_add e 1) 0 = int_wrap (Z.of_nat n).
Proof.
  induction n as [ | n IH ]; [ reflexivity | ].
  rewrite Nat2Z.inj_succ. simpl. rewrite IH. unfold int_add, int_wrap.
  f_equal.
  replace ((Z.of_nat n + 2147483648) mod 4294967296 - 2147483648 + 1 + 2147483648)
    with ((Z.of_nat n + 2147483648) mod 4294967296 + 1) by lia.
  rewrite Zplus_mod_idemp_l. f_equal. lia.
Qed.

(** What every call that passes the gate does, in terms of the heap at
    entry. *)
Lemma scbs_run_entry rt backends current_master sescmd_list expected_responses type w :
  master_gate rt (heap w) backends = false ->
  let master := get_root_master (heap w) backends in
  exists mcalls scalls w',
    select_connect_backend_servers zero_to_one_exclusive connect_succeeds rt backends
      current_master sescmd_list expected_responses type w
    = Ok ({| rval := true;
             out_master :=
               match mcalls with
               | [c] => if cc_ok c then Some (cc_backend c) else current_master
               | _ => current_master
               end;
             out_expected := bump sescmd_list (successes scalls) expected_responses |},
          w')
    /\ heap w' = replay scalls (replay mcalls (heap w))
    /\ connect_log w' = connect_log w ++ mcalls ++ scalls
    /\ (type = SLAVE -> mcalls = [])
    /\ (length mcalls <= 1)%nat
    /\ Forall (fun c => Some (cc_backend c) = master /\ cc_slave c = false
                        /\ cc_backend c ∈ backends) mcalls
    /\ Forall (fun c => cc_slave c = true /\ cc_sescmd c = sescmd_list
                        /\ cc_backend c
                           ∈ slave_candidates (replay mcalls (heap w)) backends master)
         scalls
    /\ map cc_backend scalls ⊆+ slave_candidates (heap w) backends master
    /\ agree_on_slaves (heap w) (replay mcalls (heap w)) backends master
    /\ (max_slave_count rt <= (get_slave_counts (heap w) backends master).2 ->
        scalls = [])
    /\ (INT_MIN <= (get_slave_counts (heap w) backends master).2 ->
        max_slave_count rt <= INT_MAX ->
        Z.of_nat (successes scalls)
        <= Z.max 0 (max_slave_count rt
                    - (get_slave_counts (heap w) backends master).2)).
Proof.
  intros Hgate master.
  destruct (scbs_run rt backends current_master sescmd_list expected_responses
              type w Hgate)
    as (mcalls & scalls & w' & Hrun & Hheap & Hlog & Htype & Hlen & Hm & Hs
        & Hsub & Hnone & Hquota).
  fold master in Hm, Hsub, Hnone, Hquota.
  assert (Hag : agree_on_slaves (heap w) (replay mcalls (heap w)) backends master).
  { apply master_calls_agree. eapply Forall_impl; [ exact Hm | ].
    simpl. intros c (Hc & _). exact Hc. }
  rewrite (get_slave_counts_agree _ _ _ _ Hag) in Hnone, Hquota.
  exists mcalls, scalls, w'.
  split; [ exact Hrun | ]. split; [ exact Hheap | ]. split; [ exact Hlog | ].
  split; [ exact Htype | ]. split; [ exact Hlen | ]. split.
  { eapply Forall_impl; [ exact Hm | ]. simpl. intros c (? & ? & ? & ? & ?). auto. }
  split.
  { apply Forall_forall. intros c Hc. rewrite Forall_forall in Hs.
    destruct (Hs c Hc) as [H1 H2]. repeat split; auto.
    eapply elem_of_submseteq; [ | exact Hsub ].
    apply list_elem_of_In. apply in_map. apply list_elem_of_In. exact Hc. }
  split.
  { rewrite <- (slave_candidates_agree _ _ _ _ Hag). exact Hsub. }
  auto.
Qed.

(** C2: when the vector holds distinct backends and at entry at most
    [max_slave_count()] of them are in use, can connect and are valid
    slaves for the root master, the same holds after the call; the
    number of such backends grows by exactly the number of successful
    connects made for slave candidates. *)
Theorem slave_quota :
  forall rt backends current_master sescmd_list expected_responses type w,
    let master := get_root_master (heap w) backends in
    NoDup backends ->
    max_slave_count rt <= INT_MAX ->
    Z.of_nat (connected_slaves (heap w) backends master) <= max_slave_count rt ->
    exists out w' calls,
      select_connect_backend_servers zero_to_one_exclusive connect_succeeds rt
        backends current_master sescmd_list expected_responses type w
      = Ok (out, w')
      /\ connect_log w' = connect_log w ++ calls
      /\ connected_slaves (heap w') backends master
         = (connected_slaves (heap w) backends master
            + successes (List.filter cc_slave calls))%nat
      /\ Z.of_nat (connected_slaves (heap w') backends master) <= max_slave_count rt.
Proof.
  intros rt backends cm sescmd e type w master Hnd Hmax Hentry.
  destruct (master_gate rt (heap w) backends) eqn:Hgate.
  { eexists _, w, []. split; [ apply scbs_gate; exact Hgate | ].
    rewrite app_nil_r. unfold successes. simpl. repeat split; auto; lia. }
  destruct (scbs_run_entry rt backends cm sescmd e type w Hgate)
    as (mcalls & scalls & w' & Hrun & Hheap & Hlog & _ & _ & Hm & Hs
        & Hsub & Hag & _ & Hquota).
  fold master in Hm, Hs, Hsub, Hag, Hquota.
  assert (Hcount : connected_slaves (heap w') backends master
                   = (connected_slaves (heap w) backends master
                      + successes scalls)%nat).
  { rewrite Hheap, connected_slaves_replay; [ | exact Hnd | | ].
    - rewrite (connected_slaves_agree _ _ _ _ Hag). reflexivity.
    - eapply submseteq_NoDup_l; [ exact Hsub | ].
      apply slave_candidates_NoDup. exact Hnd.
    - eapply Forall_impl; [ exact Hs | ]. simpl. intros c (_ & _ & Hc). exact Hc. }
  eexists _, w', (mcalls ++ scalls). split; [ exact Hrun | ].
  split; [ exact Hlog | ].
  rewrite filter_slave_calls.
  - split; [ exact Hcount | ]. rewrite Hcount.
    rewrite get_slave_counts_connected in Hquota by lia.
    unfold INT_MIN in Hquota. lia.
  - eapply Forall_impl; [ exact Hm | ]. simpl. intros c (_ & Hc & _). exact Hc.
  - eapply Forall_impl; [ exact Hs | ]. simpl. intros c (Hc & _). exact Hc.
Qed.

(** C5: with a non-empty session-command list and [*expected_responses]
    equal to 0 at entry, the value after the call is the number of
    connects that succeeded for slave candidates in this call (as an
    [int]; the number itself for a vector of at most [INT_MAX]
    backends).  With a null or an empty list the value is unchanged, and
    a null [expected_responses] stays null. *)
Theorem expected_responses_accounting :
  forall rt backends current_master sescmd_list expected_responses type w,
  exists out w' calls,
    select_connect_backend_servers zero_to_one_exclusive connect_succeeds rt
      backends current_master sescmd_list expected_responses type w
    = Ok (out, w')
    /\ connect_log w' = connect_log w ++ calls
    /\ (sescmd_nonempty sescmd_list = true -> expected_responses = Some 0 ->
        out_expected out
        = Some (int_wrap (Z.of_nat (successes (List.filter cc_slave calls))))
        /\ (Z.of_nat (length backends) <= INT_MAX ->
            out_expected out
            = Some (Z.of_nat (successes (List.filter cc_slave calls)))))
    /\ (sescmd_nonempty sescmd_list = false -> out_expected out = expected_responses)
    /\ (expected_responses = None -> out_expected out = None).
Proof.
  intros rt backends cm sescmd e type w.
  destruct (master_gate rt (heap w) backends) eqn:Hgate.
  { eexists _, w, []. split; [ apply scbs_gate; exact Hgate | ].
    rewrite app_nil_r. simpl. repeat split; auto. }
  destruct (scbs_run_entry rt backends cm sescmd e type w Hgate)
    as (mcalls & scalls & w' & Hrun & _ & Hlog & _ & _ & Hm & Hs & Hsub & _).
  eexists _, w', (mcalls ++ scalls). split; [ exact Hrun | ].
  split; [ exact Hlog | ]. simpl.
  rewrite filter_slave_calls.
  - split; [ | split ].
    + intros Hne ->. unfold bump. rewrite Hne. simpl. rewrite iter_int_add.
      split; [ reflexivity | ]. intros Hlen. rewrite int_wrap_small; [ reflexivity | ].
      pose proof (successes_le_length scalls) as H1.
      apply submseteq_length in Hsub. rewrite length_map in Hsub.
      pose proof (filter_length_le
                    (fun p => negb (in_use (heap w p)) && can_connect (heap w p)
                              && valid_for_slave (heap w) p
                                   (get_root_master (heap w) backends))
                    backends) as H2.
      unfold slave_candidates in Hsub. unfold INT_MIN. lia.
    + intros Hne. unfold bump. rewrite Hne. reflexivity.
    + intros ->. unfold bump. destruct (sescmd_nonempty sescmd); reflexivity.
  - eapply Forall_impl; [ exact Hm | ]. simpl. intros c (_ & Hc & _). exact Hc.
  - eapply Forall_impl; [ exact Hs | ]. simpl. intros c (Hc & _). exact Hc.
Qed.

(** C6: the top-up loop ends within as many rounds as there are
    candidates at its start: with that much fuel it returns, and more
    fuel gives the same result.  Every call of the function ends; the
    backends it passes to [connect] as slave candidates are, counted with
    their multiplicity, among the entries of the candidate set, so no
    entry is offered twice and the connects are no more than the
    candidates; every connect is on a backend of the vector, and when
    the vector holds distinct backends no backend is passed to [connect]
    twice. *)
Theorem no_double_connect :
  (forall select sescmd_list max_nslaves fuel slaves_connected candidates
          expected_responses w,
     (length candidates <= fuel)%nat ->
     topup_loop connect_succeeds fuel select sescmd_list max_nslaves
       slaves_connected candidates expected_responses w
     = topup_loop connect_succeeds (length candidates) select sescmd_list
         max_nslaves slaves_connected candidates expected_responses w)
  /\ (forall sc sescmd_list max_nslaves slaves_connected candidates
             expected_responses w,
        exists r,
          topup_loop connect_succeeds (length candidates)
            (get_backend_select_function zero_to_one_exclusive sc)
            sescmd_list max_nslaves slaves_connected candidates
            expected_responses w
          = Ok r)
  /\ (forall rt backends current_master sescmd_list expected_responses type w,
      exists out w' calls,
        select_connect_backend_servers zero_to_one_exclusive connect_succeeds rt
          backends current_master sescmd_list expected_responses type w
        = Ok (out, w')
        /\ connect_log w' = connect_log w ++ calls
        /\ map cc_backend (List.filter cc_slave calls)
           ⊆+ slave_candidates (heap w) backends (get_root_master (heap w) backends)
        /\ (length (List.filter cc_slave calls)
            <= length (slave_candidates (heap w) backends
                         (get_root_master (heap w) backends)))%nat
        /\ Forall (fun c => cc_backend c ∈ backends) calls
        /\ (NoDup backends -> NoDup (map cc_backend calls))).
Proof.
  split; [ | split ].
  - intros select sescmd max_nslaves fuel sc cands e w Hlen.
    apply topup_loop_fuel; [ exact Hlen | reflexivity ].
  - intros sc sescmd max_nslaves slaves cands e w.
    destruct (topup_loop_run _ sescmd max_nslaves
                (get_backend_select_function_frame zero_to_one_exclusive sc)
                (length cands) slaves cands e w (Nat.le_refl _))
      as (calls & w' & Hrun & _).
    eexists. exact Hrun.
  - intros rt backends cm sescmd e type w.
    destruct (master_gate rt (heap w) backends) eqn:Hgate.
    { eexists _, w, []. split; [ apply scbs_gate; exact Hgate | ].
      rewrite app_nil_r. simpl. repeat split; auto; try lia.
      - apply submseteq_nil_l.
      - intros _. constructor. }
    destruct (scbs_run_entry rt backends cm sescmd e type w Hgate)
      as (mcalls & scalls & w' & Hrun & _ & Hlog & _ & Hlen & Hm & Hs & Hsub & _).
    eexists _, w', (mcalls ++ scalls). split; [ exact Hrun | ].
    split; [ exact Hlog | ].
    assert (Hin : forall b, b ∈ map cc_backend scalls ->
              b ∈ slave_candidates (heap w) backends
                    (get_root_master (heap w) backends)).
    { intros b Hb. eapply elem_of_submseteq; eassumption. }
    assert (Hfilter : List.filter cc_slave (mcalls ++ scalls) = scalls).
    { apply filter_slave_calls.
      - eapply Forall_impl; [ exact Hm | ]. simpl. intros c (_ & Hc & _). exact Hc.
      - eapply Forall_impl; [ exact Hs | ]. simpl. intros c (Hc & _). exact Hc. }
    rewrite Hfilter.
    split; [ exact Hsub | ]. split; [ | split ].
    + apply submseteq_length in Hsub. rewrite length_map in Hsub. exact Hsub.
    + apply Forall_app. split.
      * eapply Forall_impl; [ exact Hm | ]. simpl. intros c (_ & _ & Hc). exact Hc.
      * apply Forall_forall. intros c Hc.
        assert (Hb : cc_backend c ∈ map cc_backend scalls).
        { apply list_elem_of_In. apply in_map. apply list_elem_of_In. exact Hc. }
        apply Hin in Hb. apply slave_candidates_elem in Hb as [Hb _]. exact Hb.
    + intros Hnd. rewrite map_app. apply NoDup_app. split; [ | split ].
      * destruct mcalls as [ | c [ | c' l ] ]; simpl in *;
          [ constructor | apply NoDup_singleton | lia ].
      * intros b Hb Hb'. apply Hin in Hb'.
        apply slave_candidates_elem in Hb' as (_ & _ & _ & Hv).
        apply list_elem_of_In, in_map_iff in Hb as (c & <- & Hc).
        apply list_elem_of_In in Hc. rewrite Forall_forall in Hm.
        destruct (Hm c Hc) as (Hmaster & _).
        unfold valid_for_slave in Hv. rewrite <- Hmaster, Nat.eqb_refl in Hv.
        rewrite andb_false_r in Hv. discriminate.
      * eapply submseteq_NoDup_l; [ exact Hsub | ].
        apply slave_candidates_NoDup. exact Hnd.
Qed.

(** C10 (amended): when [max_slave_count()] is 0 and the vector has at
    most [INT_MAX] backends, the body of the top-up loop never runs: no
    connect is made for a slave candidate, [*expected_responses] keeps
    its value, and no backend but the root master changes (none at all
    when [type] is [SLAVE]).  The call returns [true] unless the
    master-failure gate makes it return [false]. *)
Theorem zero_quota_connects_no_slave :
  forall rt backends current_master sescmd_list expected_responses type w,
    let master := get_root_master (heap w) backends in
    max_slave_count rt = 0 ->
    Z.of_nat (length backends) <= INT_MAX ->
    exists out w' calls,
      select_connect_backend_servers zero_to_one_exclusive connect_succeeds rt
        backends current_master sescmd_list expected_responses type w
      = Ok (out, w')
      /\ connect_log w' = connect_log w ++ calls
      /\ Forall (fun c => cc_slave c = false /\ Some (cc_backend c) = master) calls
      /\ (type = SLAVE -> calls = [] /\ heap w' = heap w)
      /\ out_expected out = expected_responses
      /\ (forall b, Some b <> master -> heap w' b = heap w b)
      /\ rval out = negb (master_gate rt (heap w) backends).
Proof.
  intros rt backends cm sescmd e type w master Hzero Hlen.
  destruct (master_gate rt (heap w) backends) eqn:Hgate.
  { eexists _, w, []. split; [ apply scbs_gate; exact Hgate | ].
    rewrite app_nil_r. simpl. repeat split; auto. }
  destruct (scbs_run_entry rt backends cm sescmd e type w Hgate)
    as (mcalls & scalls & w' & Hrun & Hheap & Hlog & Htype & _ & Hm & _ & _ & _
        & Hnone & _).
  fold master in Hm, Hnone.
  assert (Hs : scalls = []).
  { apply Hnone. rewrite Hzero.
    pose proof (connected_slaves_le_length (heap w) backends master) as Hc.
    rewrite get_slave_counts_connected by lia. lia. }
  subst scalls. rewrite app_nil_r in Hlog. simpl in Hheap.
  eexists _, w', mcalls. split; [ exact Hrun | ]. split; [ exact Hlog | ].
  split.
  { eapply Forall_impl; [ exact Hm | ]. simpl. intros c (? & ? & _). auto. }
  split.
  { intros Ht. rewrite (Htype Ht) in *. auto. }
  split; [ simpl; apply bump_0 | ]. split; [ | reflexivity ].
  intros b Hb. rewrite Hheap. apply replay_untouched.
  eapply Forall_impl; [ exact Hm | ]. simpl. intros c (Hc & _) Heq.
  apply Hb. rewrite <- Heq. exact Hc.
Qed.

End BringupProperties.

(* ================================================================== *)
(** * Scenarios *)
(* ================================================================== *)

Definition example_router (mode : failure_mode) (max_nslaves : Z) : RWSplit :=
  {| config := {| slave_selection_criteria := LEAST_ROUTER_CONNECTIONS;
                  master_failure_mode := mode;
                  master_accepts_reads := false |};
     max_slave_count := max_nslaves |}.

(** An engine that always draws zero. *)
Definition draw_zero : nat -> double := fun _ => zero.

(** A network on which every connect succeeds but the one to backend
    1. *)
Definition all_but_one : World -> BackendId -> bool :=
  fun _ b => negb (Nat.eqb b 1).

(** A drained master at address 0 before the slaves of the first
    scenario. *)
Definition drained_heap : Heap :=
  fun b => match b with
           | 0%nat => example_master false
           | _ => scenario_heap b
           end.

Definition drained_world : World :=
  {| heap := drained_heap; draws := 0; connect_log := [] |}.

Lemma distinct_three : NoDup [0; 1; 2]%nat.
Proof.
  apply NoDup_ListNoDup. repeat constructor; simpl; intuition discriminate.
Defined.

(** The fifth scenario of the specification: the policy first chooses
    backend 1, whose connect fails; the next round chooses backend 0 and
    does not try backend 1 again. *)
Example topup_skips_failed_candidate :
  exists w',
    select_connect_backend_servers draw_zero all_but_one
      (example_router RW_FAIL_ON_WRITE 2) [0; 1; 2]%nat None (Some [7%nat])
      (Some 0) ALL scenario_world
    = Ok ({| rval := true; out_master := None; out_expected := Some 1 |}, w')
    /\ map (fun c => (cc_backend c, cc_ok c)) (connect_log w')
       = [(1%nat, false); (0%nat, true)]
    /\ map (fun b => in_use (heap w' b)) [0; 1; 2]%nat = [true; false; true].
Proof. eexists. vm_compute. repeat split. Qed.

(** The third scenario: a drained master under [RW_FAIL_INSTANTLY]. *)
Example instant_fail_with_drained_master :
  select_connect_backend_servers draw_zero all_but_one
    (example_router RW_FAIL_INSTANTLY 2) [0; 1; 2]%nat None (Some [7%nat])
    (Some 0) ALL drained_world
  = Ok ({| rval := false; out_master := None; out_expected := Some 0 |},
        drained_world).
Proof. vm_compute. reflexivity. Qed.

(** C1, witness: the third scenario.  The first master of the vector is
    drained and the mode is [RW_FAIL_INSTANTLY]: the call returns [false]
    and the world is unchanged. *)
Lemma master_failure_gate_witness :
  exists out w',
    select_connect_backend_servers draw_zero all_but_one
      (example_router RW_FAIL_INSTANTLY 2) [0; 1; 2]%nat None (Some [7%nat])
      (Some 0) ALL drained_world
    = Ok (out, w')
    /\ rval out = false
    /\ w' = drained_world.
Proof.
  destruct (master_failure_gate draw_zero all_but_one
              (example_router RW_FAIL_INSTANTLY 2) [0; 1; 2]%nat None
              (Some [7%nat]) (Some 0) ALL drained_world)
    as (out & w' & Hrun & Hiff & Hframe & _).
  exists out, w'. split; [ exact Hrun | ].
  assert (Hfalse : rval out = false).
  { apply Hiff. split; [ | reflexivity ].
    right. exists 0%nat. split; [ | reflexivity ].
    exists 0%nat. repeat split. intros j b' Hj. inversion Hj. }
  split; [ exact Hfalse | ]. apply Hframe. exact Hfalse.
Defined.

(** What the roulette's [end()] leads to.  A router with the adaptive
    policy and an engine that draws [1 - 2^-53]: on the three idle slaves
    with averages of 1, 1 and 3 seconds the top-up loop stops at once and
    connects no slave, though the quota is 2 and every connect would
    succeed; [find_best_backend] dereferences [end()]. *)
Definition adaptive_router : RWSplit :=
  {| config := {| slave_selection_criteria := ADAPTIVE_ROUTING;
                  master_failure_mode := RW_FAIL_ON_WRITE;
                  master_accepts_reads := false |};
     max_slave_count := 2 |}.

Definition drift_world : World :=
  {| heap := drift_heap; draws := 0; connect_log := [] |}.

Example adaptive_drift_connects_nothing :
  exists w',
    select_connect_backend_servers (fun _ => below_one) (fun _ _ => true)
      adaptive_router [0; 1; 2]%nat None None None SLAVE drift_world
    = Ok ({| rval := true; out_master := None; out_expected := None |}, w')
    /\ connect_log w' = []
    /\ draws w' = 1%nat.
Proof. eexists. vm_compute. repeat split. Qed.

Example adaptive_drift_dereferences_end :
  find_best_backend [0; 1; 2]%nat
    (backend_cmp_response_time (fun _ => below_one)) false drift_world
  = Err UndefinedBehaviour.
Proof. vm_compute. reflexivity. Qed.

(** C2, witness: in the first scenario one slave is connected at entry
    and the quota is 2. *)
Lemma slave_quota_witness :
  exists out w' calls,
    select_connect_backend_servers draw_zero all_but_one
      (example_router RW_FAIL_ON_WRITE 2) [0; 1; 2]%nat None (Some [7%nat])
      (Some 0) ALL scenario_world
    = Ok (out, w')
    /\ connect_log w' = connect_log scenario_world ++ calls
    /\ connected_slaves (heap w') [0; 1; 2]%nat
         (get_root_master (heap scenario_world) [0; 1; 2]%nat)
       = (connected_slaves (heap scenario_world) [0; 1; 2]%nat
            (get_root_master (heap scenario_world) [0; 1; 2]%nat)
          + successes (List.filter cc_slave calls))%nat
    /\ Z.of_nat (connected_slaves (heap w') [0; 1; 2]%nat
                   (get_root_master (heap scenario_world) [0; 1; 2]%nat))
       <= max_slave_count (example_router RW_FAIL_ON_WRITE 2).
Proof.
  apply (slave_quota draw_zero all_but_one (example_router RW_FAIL_ON_WRITE 2)
           [0; 1; 2]%nat None (Some [7%nat]) (Some 0) ALL scenario_world).
  - exact distinct_three.
  - vm_compute. discriminate.
  - vm_compute. discriminate.
Defined.

(** C5, witness: in the fifth scenario one connect of two succeeds and
    [*expected_responses] ends at that count. *)
Lemma expected_responses_witness :
  exists out w' calls,
    select_connect_backend_servers draw_zero all_but_one
      (example_router RW_FAIL_ON_WRITE 2) [0; 1; 2]%nat None (Some [7%nat])
      (Some 0) ALL scenario_world
    = Ok (out, w')
    /\ connect_log w' = connect_log scenario_world ++ calls
    /\ out_expected out = Some (Z.of_nat (successes (List.filter cc_slave calls))).
Proof.
  destruct (expected_responses_accounting draw_zero all_but_one
              (example_router RW_FAIL_ON_WRITE 2) [0; 1; 2]%nat None
              (Some [7%nat]) (Some 0) ALL scenario_world)
    as (out & w' & calls & Hrun & Hlog & Hcount & _).
  exists out, w', calls. split; [ exact Hrun | ]. split; [ exact Hlog | ].
  apply Hcount; [ reflexivity | reflexivity | vm_compute; discriminate ].
Defined.

(** C6, witness: in the fifth scenario no backend is connected twice. *)
Lemma no_double_connect_witness :
  exists out w' calls,
    select_connect_backend_servers draw_zero all_but_one
      (example_router RW_FAIL_ON_WRITE 2) [0; 1; 2]%nat None (Some [7%nat])
      (Some 0) ALL scenario_world
    = Ok (out, w')
    /\ connect_log w' = connect_log scenario_world ++ calls
    /\ NoDup (map cc_backend calls).
Proof.
  destruct (proj2 (proj2 (no_double_connect draw_zero all_but_one))
              (example_router RW_FAIL_ON_WRITE 2) [0; 1; 2]%nat None
              (Some [7%nat]) (Some 0) ALL scenario_world)
    as (out & w' & calls & Hrun & Hlog & _ & _ & _ & Hnd).
  exists out, w', calls. split; [ exact Hrun | ]. split; [ exact Hlog | ].
  apply Hnd. exact distinct_three.
Defined.

(** C10, counterexample: with [max_slave_count()] equal to 0, no master
    in the vector and [RW_FAIL_INSTANTLY], the call returns [false]. *)
Lemma zero_quota_gate_returns_false :
  max_slave_count (example_router RW_FAIL_INSTANTLY 0) = 0
  /\ select_connect_backend_servers draw_zero all_but_one
       (example_router RW_FAIL_INSTANTLY 0) [0; 1; 2]%nat None None None ALL
       scenario_world
     = Ok ({| rval := false; out_master := None; out_expected := None |},
           scenario_world)
  /\ rval {| rval := false; out_master := None; out_expected := None |} <> true.
Proof. vm_compute. repeat split. discriminate. Qed.

(** C10, witness: with a usable master at address 0 and a quota of 0
    the master is the only backend connected. *)
Definition master_heap : Heap :=
  fun b => match b with
           | 0%nat => example_master true
           | _ => scenario_heap b
           end.

Definition master_world : World :=
  {| heap := master_heap; draws := 0; connect_log := [] |}.

Lemma zero_quota_witness :
  exists out w' calls,
    select_connect_backend_servers draw_zero all_but_one
      (example_router RW_FAIL_INSTANTLY 0) [0; 1; 2]%nat None (Some [7%nat])
      (Some 0) ALL master_world
    = Ok (out, w')
    /\ connect_log w' = connect_log master_world ++ calls
    /\ Forall (fun c => cc_slave c = false
                        /\ Some (cc_backend c)
                           = get_root_master (heap master_world) [0; 1; 2]%nat) calls
    /\ (ALL = SLAVE -> calls = [] /\ heap w' = heap master_world)
    /\ out_expected out = Some 0
    /\ (forall b, Some b <> get_root_master (heap master_world) [0; 1; 2]%nat ->
          heap w' b = heap master_world b)
    /\ rval out = negb (master_gate (example_router RW_FAIL_INSTANTLY 0)
                          (heap master_world) [0; 1; 2]%nat).
Proof.
  apply (zero_quota_connects_no_slave draw_zero all_but_one
           (example_router RW_FAIL_INSTANTLY 0) [0; 1; 2]%nat None
           (Some [7%nat]) (Some 0) ALL master_world).
  - reflexivity.
  - vm_compute. discriminate.
Defined.

(** With the usable master and a quota of 0 the call connects the master
    and returns [true]. *)
Example zero_quota_connects_master :
  exists w',
    select_connect_backend_servers draw_zero all_but_one
      (example_router RW_FAIL_INSTANTLY 0) [0; 1; 2]%nat None (Some [7%nat])
      (Some 0) ALL master_world
    = Ok ({| rval := true; out_master := Some 0%nat; out_expected := Some 0 |}, w')
    /\ map (fun c => (cc_backend c, cc_slave c, cc_ok c)) (connect_log w')
       = [(0%nat, false, true)].
Proof. eexists. vm_compute. repeat split. Qed.

(* ================================================================== *)
(** * Further properties of the selection functions *)
(* ================================================================== *)

(** ** Every selection function *)

Lemma non_adaptive_policy_score sc :
  sc <> ADAPTIVE_ROUTING -> exists server_score, policy_score sc = Some server_score.
Proof. destruct sc; intros H; eauto; congruence. Qed.

(** X2: each of the five selection functions returns a position of the
    vector or [end()] and changes neither a backend nor the log of
    [connect]; the four functions built on [best_score] leave the random
    engine alone, the adaptive one draws exactly one value. *)
Theorem selection_functions_frame :
  forall z sc l w,
  exists i w',
    get_backend_select_function z sc l w = Ok (i, w')
    /\ (i <= length l)%nat
    /\ heap w' = heap w
    /\ connect_log w' = connect_log w
    /\ draws w' = match sc with
                  | ADAPTIVE_ROUTING => S (draws w)
                  | _ => draws w
                  end.
Proof.
  intros z sc l w. destruct sc; simpl;
    try (eexists _, w; split; [ reflexivity | ];
         split; [ apply best_score_le_length | repeat split ]).
  eexists _, _. split; [ reflexivity | ].
  split; [ apply roulette_winner_le_length | repeat split ].
Qed.

(** ** [best_score], completely *)





(* ================================================================== *)
(** * Further properties of the utilities *)
(* ================================================================== *)

(** X4: [get_root_master] returns a null pointer exactly when no backend
    of the vector is a master, and otherwise the first backend of the
    vector that is one; whether a backend is in use or can connect plays
    no part. *)
Theorem get_root_master_first_master :
  forall h backends,
    (get_root_master h backends = None <-> no_master h backends)
    /\ (forall m, get_root_master h backends = Some m <-> first_master h backends m).
Proof.
  intros h backends. split.
  - apply get_root_master_none.
  - intros m. apply get_root_master_some.
Qed.

(** The number of backends of the vector that can connect and are valid
    slaves for the master. *)
Definition found_slaves (h : Heap) (backends : PRWBackends)
    (master : option BackendId) : nat :=
  length (List.filter (fun b => can_connect (h b) && valid_for_slave h b master)
            backends).

Lemma count_fold_both h master l :
  forall acc : Z * Z,
    INT_MIN <= acc.1 -> INT_MIN <= acc.2 ->
    acc.1 + Z.of_nat (found_slaves h l master) <= INT_MAX ->
    acc.2 + Z.of_nat (connected_slaves h l master) <= INT_MAX ->
    fold_left (count_step h master) l acc
    = (acc.1 + Z.of_nat (found_slaves h l master),
       acc.2 + Z.of_nat (connected_slaves h l master)).
Proof.
  unfold connected_slaves, found_slaves.
  induction l as [ | b l IH ]; intros [f c] Hf Hc Hfm Hcm; simpl in *.
  - f_equal; lia.
  - unfold count_step at 2. simpl.
    destruct (can_connect (h b) && valid_for_slave h b master); simpl in *;
      [ | apply IH; assumption ].
    destruct (in_use (h b)); simpl in *.
    + rewrite IH; simpl; rewrite ?int_add_no_overflow; try lia. f_equal; lia.
    + rewrite IH; simpl; rewrite ?int_add_no_overflow; try lia. f_equal; lia.
Qed.

Lemma found_slaves_le_length h backends master :
  (found_slaves h backends master <= length backends)%nat.
Proof. unfold found_slaves. apply filter_length_le. Qed.

Lemma connected_le_found h backends master :
  (connected_slaves h backends master <= found_slaves h backends master)%nat.
Proof.
  unfold connected_slaves, found_slaves.
  induction backends as [ | b l IH ]; simpl; [ lia | ].
  destruct (can_connect (h b) && valid_for_slave h b master); simpl; [ | exact IH ].
  destruct (in_use (h b)); simpl; lia.
Qed.

Lemma count_fold_skips_master h m l :
  forall acc,
    fold_left (count_step h (Some m)) l acc
    = fold_left (count_step h (Some m))
        (List.filter (fun b => negb (Nat.eqb b m)) l) acc.
Proof.
  induction l as [ | b l IH ]; intros acc; simpl; [ reflexivity | ].
  destruct (Nat.eqb_spec b m) as [ -> | Hne ]; simpl.
  - unfold count_step at 2. unfold valid_for_slave. rewrite Nat.eqb_refl.
    simpl. rewrite !andb_false_r. apply IH.
  - apply IH.
Qed.

(** X5: for a vector of at most [INT_MAX] backends, [get_slave_counts]
    returns the number of backends that can connect and are valid slaves
    for the master, and the number of those that are in use; the second
    is at most the first, which is at most the size of the vector.  The
    master itself is never counted: removing it from the vector changes
    neither count. *)
Theorem get_slave_counts_spec :
  forall h backends master,
    (Z.of_nat (length backends) <= INT_MAX ->
     get_slave_counts h backends master
     = (Z.of_nat (found_slaves h backends master),
        Z.of_nat (connected_slaves h backends master)))
    /\ (connected_slaves h backends master <= found_slaves h backends master
        <= length backends)%nat
    /\ (forall m, master = Some m ->
          get_slave_counts h backends master
          = get_slave_counts h (List.filter (fun b => negb (Nat.eqb b m)) backends)
              master).
Proof.
  intros h backends master. split; [ | split ].
  - intros Hlen. unfold get_slave_counts.
    pose proof (found_slaves_le_length h backends master).
    pose proof (connected_slaves_le_length h backends master).
    rewrite count_fold_both; simpl; unfold INT_MIN; try lia. reflexivity.
  - split; [ apply connected_le_found | apply found_slaves_le_length ].
  - intros m ->. unfold get_slave_counts. apply count_fold_skips_master.
Qed.

(** X5, witness: the three slaves of the first scenario, one in use. *)
Lemma get_slave_counts_witness :
  get_slave_counts scenario_heap [0; 1; 2]%nat None
  = (Z.of_nat (found_slaves scenario_heap [0; 1; 2]%nat None),
     Z.of_nat (connected_slaves scenario_heap [0; 1; 2]%nat None)).
Proof.
  apply (proj1 (get_slave_counts_spec scenario_heap [0; 1; 2]%nat None)).
  vm_compute. discriminate.
Defined.

(* ================================================================== *)
(** * Further properties of [find_best_backend] *)
(* ================================================================== *)

Lemma bucket_of_sublist h mar l p : bucket_of h mar l p `sublist_of` l.
Proof.
  unfold bucket_of. induction l as [ | b l IH ]; simpl; [ constructor | ].
  destruct (priority_of h mar b =? p); [ apply sublist_skip | apply sublist_cons ];
    exact IH.
Qed.

Lemma buckets_permutation h mar l :
  l ≡ₚ bucket_of h mar l 1 ++ bucket_of h mar l 2 ++ bucket_of h mar l 13.
Proof.
  unfold bucket_of. induction l as [ | b l IH ]; simpl; [ reflexivity | ].
  destruct (priority_of_values h mar b) as [ -> | [ -> | -> ] ]; simpl.
  - rewrite <- IH. reflexivity.
  - rewrite <- Permutation_middle, <- IH. reflexivity.
  - rewrite app_assoc, <- Permutation_middle, <- app_assoc, <- IH. reflexivity.
Qed.

Lemma best_priority_nonempty h mar l :
  l <> [] ->
  lowest_bucket h mar l <> []
  /\ (best_priority_of h mar l = 1 \/ best_priority_of h mar l = 2
      \/ best_priority_of h mar l = 13).
Proof.
  intros Hne.
  pose proof (fold_min_le (map (priority_of h mar) l) INT_MAX) as (_ & Hall & Hin).
  change (fold_left Z.min (map (priority_of h mar) l) INT_MAX)
    with (best_priority_of h mar l) in *.
  assert (Hmem : exists b, In b l /\ priority_of h mar b = best_priority_of h mar l).
  { destruct Hin as [Heq | Hin].
    - exfalso. destruct l as [ | b0 l ]; [ congruence | ].
      specialize (Hall (priority_of h mar b0) ltac:(left; reflexivity)).
      rewrite Heq in Hall. unfold INT_MAX in Hall.
      destruct (priority_of_values h mar b0) as [ H | [ H | H ] ]; lia.
    - apply in_map_iff in Hin as (b & Hb & Hbl). eauto. }
  destruct Hmem as (b & Hbl & Hb). split.
  - intros Hnil.
    assert (Hmem : b ∈ lowest_bucket h mar l).
    { apply lowest_bucket_elem. split; [ apply list_elem_of_In; exact Hbl | ].
      exact Hb. }
    rewrite Hnil in Hmem. apply elem_of_nil in Hmem. exact Hmem.
  - rewrite <- Hb. apply priority_of_values.
Qed.

(** X6: the priority map that [find_best_backend] builds splits the
    vector: under each key it holds the backends of that priority in the
    order of the vector, the keys 1, 2 and 13 together hold every backend
    once, and every other key is empty.  [best_priority] ends as the
    lowest priority present, one of 1, 2 and 13 with a non-empty bucket
    when the vector is not empty, and as [INT_MAX] with an empty bucket
    when it is. *)
Theorem priority_map_partition :
  forall h mar l,
    (forall p, (group_by_priority h mar l).1 !!! p = bucket_of h mar l p)
    /\ (group_by_priority h mar l).2 = best_priority_of h mar l
    /\ (forall p, bucket_of h mar l p `sublist_of` l)
    /\ l ≡ₚ bucket_of h mar l 1 ++ bucket_of h mar l 2 ++ bucket_of h mar l 13
    /\ (forall p, p <> 1 -> p <> 2 -> p <> 13 -> bucket_of h mar l p = [])
    /\ (l <> [] ->
        lowest_bucket h mar l <> []
        /\ (best_priority_of h mar l = 1 \/ best_priority_of h mar l = 2
            \/ best_priority_of h mar l = 13))
    /\ (l = [] -> best_priority_of h mar l = INT_MAX /\ lowest_bucket h mar l = []).
Proof.
  intros h mar l.
  destruct (group_fold h mar l (∅, INT_MAX)) as [Hmap Hmin].
  split; [ | split; [ | split; [ | split; [ | split; [ | split ] ] ] ] ].
  - intros p. unfold group_by_priority. rewrite Hmap. simpl.
    rewrite lookup_total_empty. reflexivity.
  - exact Hmin.
  - intros p. apply bucket_of_sublist.
  - apply buckets_permutation.
  - intros p H1 H2 H13. clear Hmap Hmin. unfold bucket_of.
    induction l as [ | b l IH ]; simpl; [ reflexivity | ].
    destruct (Z.eqb_spec (priority_of h mar b) p) as [ Heq | _ ]; [ | exact IH ].
    destruct (priority_of_values h mar b) as [ H | [ H | H ] ]; congruence.
  - apply best_priority_nonempty.
  - intros ->. split; reflexivity.
Qed.

(** X6, witness: the priority map of the first scenario. *)
Lemma priority_map_partition_witness :
  lowest_bucket scenario_heap false [0; 1; 2]%nat <> []
  /\ (best_priority_of scenario_heap false [0; 1; 2]%nat = 1
      \/ best_priority_of scenario_heap false [0; 1; 2]%nat = 2
      \/ best_priority_of scenario_heap false [0; 1; 2]%nat = 13).
Proof.
  apply (proj1 (proj2 (proj2 (proj2 (proj2 (proj2
           (priority_map_partition scenario_heap false [0; 1; 2]%nat))))))).
  discriminate.
Defined.

(** X7: when no backend of the vector is an idle server that acts as a
    slave and some backend does not act as a slave, the backend that
    [find_best_backend] returns does not act as a slave: it is no slave,
    and it is no master either unless [masters_accepts_reads] is off.
    With [masters_accepts_reads] off, a master is thus returned in
    preference to the busy slaves. *)
Theorem non_slave_preferred_over_busy :
  forall backends select mar w idx w',
    find_best_backend backends select mar w = Ok (idx, w') ->
    (forall b', b' ∈ backends -> priority_of (heap w) mar b' <> 1) ->
    (exists b', b' ∈ backends /\ priority_of (heap w) mar b' = 2) ->
    exists b,
      backends !! idx = Some b
      /\ priority_of (heap w) mar b = 2
      /\ is_slave (heap w b) = false
      /\ (is_master (heap w b) = true -> mar = false).
Proof.
  intros backends select mar w idx w' Hfind Hno1 (b2 & Hb2 & Hp2).
  apply find_best_backend_ok in Hfind as (best & b & Hsel & Hb & ->).
  assert (Hin : b ∈ lowest_bucket (heap w) mar backends).
  { eapply list_elem_of_lookup_2. eassumption. }
  apply lowest_bucket_elem in Hin as [Hin Hprio].
  destruct (std_find_spec backends b Hin) as [Hfound _].
  exists b. split; [ exact Hfound | ].
  pose proof (best_priority_lower_bound (heap w) mar backends b2 Hb2) as Hlow.
  assert (Hp : priority_of (heap w) mar b = 2).
  { specialize (Hno1 b Hin).
    destruct (priority_of_values (heap w) mar b) as [ H | [ H | H ] ]; lia. }
  split; [ exact Hp | ].
  unfold priority_of in Hp.
  destruct (is_slave (heap w b)) eqn:Hs; simpl in Hp.
  { destruct (negb (in_use (heap w b) && has_session_commands (heap w b)));
      discriminate. }
  split; [ reflexivity | ]. intros Hm. rewrite Hm in Hp. simpl in Hp.
  destruct mar; [ | reflexivity ].
  destruct (negb (in_use (heap w b) && has_session_commands (heap w b)));
    discriminate.
Qed.

(** X7, witness: an idle master and a busy slave with
    [masters_accepts_reads] off; the master is returned. *)
Lemma non_slave_preferred_witness :
  exists b,
    [0; 2]%nat !! 0%nat = Some b
    /\ priority_of (heap master_world) false b = 2
    /\ is_slave (heap master_world b) = false
    /\ (is_master (heap master_world b) = true -> false = false).
Proof.
  apply (non_slave_preferred_over_busy [0; 2]%nat backend_cmp_router_conn false
           master_world 0%nat master_world).
  - vm_compute. reflexivity.
  - intros b' Hb'. apply elem_of_cons in Hb' as [ -> | Hb' ];
      [ vm_compute; discriminate | ].
    apply list_elem_of_singleton in Hb'. subst b'. vm_compute. discriminate.
  - exists 0%nat. split; [ apply list_elem_of_here | reflexivity ].
Defined.

(* ================================================================== *)
(** * Further properties of the session bring-up *)
(* ================================================================== *)

Section BringupFurther.

Variable zero_to_one_exclusive : nat -> double.
Variable connect_succeeds : World -> BackendId -> bool.

(** ** The master *)

(** The call of [connect] the master loop makes on [m]. *)
Definition master_call (w : World) (m : BackendId) : ConnectCall :=
  {| cc_backend := m; cc_sescmd := None; cc_slave := false;
     cc_ok := connect_succeeds w m |}.

Lemma connect_master_exact rest m current_master w :
  connect_master connect_succeeds rest (Some m) current_master w
  = if can_connect (heap w m) && existsb (fun b => Nat.eqb b m) rest
    then Ok (if connect_succeeds w m then Some m else current_master,
             after_connect connect_succeeds w m None false)
    else Ok (current_master, w).
Proof.
  induction rest as [ | b rest IH ]; simpl.
  - rewrite andb_false_r. reflexivity.
  - unfold bind, get_heap. destruct (Nat.eqb_spec b m) as [ -> | Hne ].
    + destruct (can_connect (heap w m)) eqn:Hcan; simpl.
      * unfold connect, after_connect, ret.
        destruct (connect_succeeds w m); reflexivity.
      * rewrite IH. reflexivity.
    + rewrite andb_false_r. simpl. exact IH.
Qed.

Lemma connect_master_null rest current_master w :
  connect_master connect_succeeds rest None current_master w = Ok (current_master, w).
Proof.
  induction rest as [ | b rest IH ]; simpl; [ reflexivity | ].
  unfold bind, get_heap. rewrite andb_false_r. exact IH.
Qed.

Lemma get_root_master_in h backends m :
  get_root_master h backends = Some m ->
  existsb (fun b => Nat.eqb b m) backends = true.
Proof.
  induction backends as [ | b rest IH ]; simpl; [ discriminate | ].
  destruct (is_master (h b)).
  - intros [= ->]. rewrite Nat.eqb_refl. reflexivity.
  - intros H. rewrite (IH H). apply orb_true_r.
Qed.

(** The world and the master out-parameter after the master loop. *)
Definition connects_master (type : connection_type) (h : Heap)
    (master : option BackendId) : bool :=
  bool_decide (type = ALL) && negb (master_unusable h master).

Definition after_master (type : connection_type) (master : option BackendId)
    (w : World) : World :=
  match master with
  | Some m => if connects_master type (heap w) master
              then after_connect connect_succeeds w m None false else w
  | None => w
  end.

Definition master_after (type : connection_type) (master : option BackendId)
    (current_master : option BackendId) (w : World) : option BackendId :=
  match master with
  | Some m => if connects_master type (heap w) master && connect_succeeds w m
              then Some m else current_master
  | None => current_master
  end.

(** The call, past the gate, as its two phases. *)
Lemma scbs_phases rt backends current_master sescmd_list expected_responses type w :
  master_gate rt (heap w) backends = false ->
  let master := get_root_master (heap w) backends in
  let w1 := after_master type master w in
  let candidates := slave_candidates (heap w1) backends master in
  select_connect_backend_servers zero_to_one_exclusive connect_succeeds rt backends
    current_master sescmd_list expected_responses type w
  = match topup_loop connect_succeeds (length candidates)
            (backend_select_fct zero_to_one_exclusive (config rt)) sescmd_list
            (max_slave_count rt) (get_slave_counts (heap w1) backends master).2
            candidates expected_responses w1 with
    | Ok (e, w') =>
        Ok ({| rval := true;
               out_master := master_after type master current_master w;
               out_expected := e |}, w')
    | Err x => Err x
    end.
Proof.
  intros Hgate master w1 candidates.
  unfold select_connect_backend_servers, bind, get_heap.
  unfold master_gate in Hgate. rewrite Hgate. fold master.
  assert (Hm : (if bool_decide (type = ALL)
                then connect_master connect_succeeds backends master current_master
                else ret current_master) w
               = Ok (master_after type master current_master w, w1)).
  { unfold w1, after_master, master_after, connects_master, master_unusable.
    destruct type; simpl.
    - destruct master as [ m | ] eqn:Hmaster; [ | apply connect_master_null ].
      rewrite connect_master_exact, (get_root_master_in _ _ _ Hmaster).
      rewrite andb_true_r.
      destruct (can_connect (heap w m)); simpl; [ | reflexivity ].
      destruct (connect_succeeds w m); reflexivity.
    - destruct master; reflexivity. }
  rewrite Hm. fold candidates.
  destruct (topup_loop connect_succeeds (length candidates)
              (backend_select_fct zero_to_one_exclusive (config rt)) sescmd_list
              (max_slave_count rt) (get_slave_counts (heap w1) backends master).2
              candidates expected_responses w1) as [[e w'] | x]; reflexivity.
Qed.

Definition master_calls (type : connection_type) (master : option BackendId)
    (w : World) : list ConnectCall :=
  match master with
  | Some m => if connects_master type (heap w) master then [master_call w m] else []
  | None => []
  end.

Lemma after_master_world type master w :
  heap (after_master type master w) = replay (master_calls type master w) (heap w)
  /\ connect_log (after_master type master w)
     = connect_log w ++ master_calls type master w
  /\ draws (after_master type master w) = draws w.
Proof.
  unfold after_master, master_calls. destruct master as [ m | ].
  - destruct (connects_master type (heap w) (Some m)).
    + split; [ apply after_connect_heap | split; reflexivity ].
    + rewrite app_nil_r. repeat split.
  - rewrite app_nil_r. repeat split.
Qed.

Lemma master_calls_master type master w :
  Forall (fun c => Some (cc_backend c) = master /\ cc_slave c = false)
    (master_calls type master w).
Proof.
  unfold master_calls. destruct master as [ m | ]; [ | constructor ].
  destruct (connects_master type (heap w) (Some m)); repeat constructor.
Qed.

(** The call past the gate: what the log, the heap and the result are in
    terms of the master call and the calls of the top-up loop. *)
Lemma scbs_run_full rt backends current_master sescmd_list expected_responses type w :
  master_gate rt (heap w) backends = false ->
  let master := get_root_master (heap w) backends in
  let mcalls := master_calls type master w in
  exists scalls w',
    select_connect_backend_servers zero_to_one_exclusive connect_succeeds rt backends
      current_master sescmd_list expected_responses type w
    = Ok ({| rval := true;
             out_master := master_after type master current_master w;
             out_expected := bump sescmd_list (successes scalls) expected_responses |},
          w')
    /\ heap w' = replay (mcalls ++ scalls) (heap w)
    /\ connect_log w' = connect_log w ++ mcalls ++ scalls
    /\ Forall (fun c => cc_slave c = true /\ cc_sescmd c = sescmd_list) scalls
    /\ map cc_backend scalls ⊆+ slave_candidates (heap w) backends master
    /\ agree_on_slaves (heap w) (replay mcalls (heap w)) backends master.
Proof.
  intros Hgate master mcalls.
  rewrite (scbs_phases rt backends current_master sescmd_list expected_responses
             type w Hgate).
  fold master.
  destruct (after_master_world type master w) as (Hheap1 & Hlog1 & _).
  fold mcalls in Hheap1, Hlog1.
  assert (Hag : agree_on_slaves (heap w) (replay mcalls (heap w)) backends master).
  { apply master_calls_agree. eapply Forall_impl; [ apply master_calls_master | ].
    simpl. intros c [Hc _]. exact Hc. }
  destruct (topup_loop_run connect_succeeds
              (backend_select_fct zero_to_one_exclusive (config rt))
              sescmd_list (max_slave_count rt)
              (get_backend_select_function_frame _ _)
              (length (slave_candidates (heap (after_master type master w))
                         backends master))
              (get_slave_counts (heap (after_master type master w)) backends master).2
              (slave_candidates (heap (after_master type master w)) backends master)
              expected_responses (after_master type master w) (Nat.le_refl _))
    as (scalls & w' & Hrun & Hheap & Hlog & Hall & Hsub & _).
  rewrite Hrun. exists scalls, w'. split; [ reflexivity | ].
  split; [ rewrite Hheap, Hheap1; unfold replay; rewrite fold_left_app; reflexivity | ].
  split; [ rewrite Hlog, Hlog1, <- app_assoc; reflexivity | ].
  split; [ exact Hall | ]. split; [ | exact Hag ].
  rewrite Hheap1, (slave_candidates_agree _ _ _ _ Hag) in Hsub. exact Hsub.
Qed.

(** X8: past the gate, with [type == ALL] and a root master that can
    connect, the first and only call of [connect] not made for a slave
    candidate is the one on the root master, whether or not the master
    is already in use; [*current_master] becomes the root master when
    that call succeeds and keeps its value when it fails.  When the gate
    stops the call, [type] is [SLAVE], there is no master or the master
    cannot connect, no such call is made and [*current_master] keeps its
    value. *)
Theorem master_connected_once :
  forall rt backends current_master sescmd_list expected_responses type w,
    let master := get_root_master (heap w) backends in
    exists out w' scalls,
      select_connect_backend_servers zero_to_one_exclusive connect_succeeds rt
        backends current_master sescmd_list expected_responses type w
      = Ok (out, w')
      /\ Forall (fun c => cc_slave c = true) scalls
      /\ (forall m,
            master_gate rt (heap w) backends = false -> type = ALL ->
            master = Some m -> can_connect (heap w m) = true ->
            connect_log w' = connect_log w ++ master_call w m :: scalls
            /\ out_master out
               = (if connect_succeeds w m then Some m else current_master))
      /\ (master_gate rt (heap w) backends = true \/ type = SLAVE
          \/ master_unusable (heap w) master = true ->
          connect_log w' = connect_log w ++ scalls
          /\ out_master out = current_master).
Proof.
  intros rt backends cm sescmd e type w master.
  destruct (master_gate rt (heap w) backends) eqn:Hgate.
  { eexists _, w, []. split; [ apply scbs_gate; exact Hgate | ].
    rewrite app_nil_r. simpl. split; [ constructor | ].
    split; [ discriminate | auto ]. }
  destruct (scbs_run_full rt backends cm sescmd e type w Hgate)
    as (scalls & w' & Hrun & _ & Hlog & Hall & _).
  fold master in Hrun, Hlog.
  eexists _, w', scalls. split; [ exact Hrun | ]. split.
  { eapply Forall_impl; [ exact Hall | ]. simpl. intros c [Hc _]. exact Hc. }
  simpl. split.
  - intros m _ -> Hm Hcan. rewrite Hm in Hlog. rewrite Hlog, Hm.
    unfold master_calls, master_after, connects_master, master_unusable.
    rewrite Hcan. simpl. split; reflexivity.
  - intros [Habs | [-> | Hun]]; [ discriminate | | ].
    + rewrite Hlog. unfold master_calls, master_after, connects_master.
      destruct master; simpl; auto.
    + rewrite Hlog. unfold master_calls, master_after, connects_master.
      rewrite Hun, andb_false_r. destruct master; simpl; auto.
Qed.

Lemma valid_for_slave_true h b master :
  valid_for_slave h b master = true ->
  is_slave (h b) || is_relay (h b) = true /\ Some b <> master.
Proof.
  unfold valid_for_slave. intros H. apply andb_true_iff in H as [H1 H2].
  split; [ exact H1 | ]. destruct master as [ m | ]; [ | discriminate ].
  intros [= ->]. rewrite Nat.eqb_refl in H2. discriminate.
Qed.

(** X9: every backend that the call passes to [connect] as a slave
    candidate is a backend of the vector that at entry was not in use,
    could connect, was a slave or a relay and was not the root master; it
    is connected with the session-command list of the call. *)
Theorem slave_connects_are_candidates :
  forall rt backends current_master sescmd_list expected_responses type w,
    let master := get_root_master (heap w) backends in
    exists out w' calls,
      select_connect_backend_servers zero_to_one_exclusive connect_succeeds rt
        backends current_master sescmd_list expected_responses type w
      = Ok (out, w')
      /\ connect_log w' = connect_log w ++ calls
      /\ Forall (fun c =>
                   cc_slave c = true ->
                   cc_backend c ∈ backends
                   /\ in_use (heap w (cc_backend c)) = false
                   /\ can_connect (heap w (cc_backend c)) = true
                   /\ is_slave (heap w (cc_backend c))
                      || is_relay (heap w (cc_backend c)) = true
                   /\ Some (cc_backend c) <> master
                   /\ cc_sescmd c = sescmd_list) calls.
Proof.
  intros rt backends cm sescmd e type w master.
  destruct (master_gate rt (heap w) backends) eqn:Hgate.
  { eexists _, w, []. split; [ apply scbs_gate; exact Hgate | ].
    rewrite app_nil_r. split; [ reflexivity | constructor ]. }
  destruct (scbs_run_full rt backends cm sescmd e type w Hgate)
    as (scalls & w' & Hrun & _ & Hlog & Hall & Hsub & _).
  fold master in Hrun, Hlog, Hsub.
  eexists _, w', _. split; [ exact Hrun | ]. split; [ exact Hlog | ].
  apply Forall_app. split.
  - eapply Forall_impl; [ apply master_calls_master | ]. simpl.
    intros c [_ Hc] Habs. congruence.
  - apply Forall_forall. intros c Hc _. rewrite Forall_forall in Hall.
    destruct (Hall c Hc) as [_ Hses].
    assert (Hb : cc_backend c ∈ slave_candidates (heap w) backends master).
    { eapply elem_of_submseteq; [ | exact Hsub ].
      apply list_elem_of_In. apply in_map. apply list_elem_of_In. exact Hc. }
    apply (slave_candidates_elem zero_to_one_exclusive) in Hb as (Hin & Huse & Hcan & Hv).
    apply valid_for_slave_true in Hv as [Hrole Hne]. repeat split; assumption.
Qed.

(** X10: when at entry the backends that are in use, can connect and are
    valid slaves are already as many as [max_slave_count()] or more (in a
    vector of at most [INT_MAX] backends), the call makes no connect for
    a slave candidate and leaves [*expected_responses] as it was. *)
Theorem full_quota_connects_no_slave :
  forall rt backends current_master sescmd_list expected_responses type w,
    let master := get_root_master (heap w) backends in
    Z.of_nat (length backends) <= INT_MAX ->
    max_slave_count rt <= Z.of_nat (connected_slaves (heap w) backends master) ->
    exists out w' calls,
      select_connect_backend_servers zero_to_one_exclusive connect_succeeds rt
        backends current_master sescmd_list expected_responses type w
      = Ok (out, w')
      /\ connect_log w' = connect_log w ++ calls
      /\ Forall (fun c => cc_slave c = false) calls
      /\ out_expected out = expected_responses.
Proof.
  intros rt backends cm sescmd e type w master Hlen Hfull.
  destruct (master_gate rt (heap w) backends) eqn:Hgate.
  { eexists _, w, []. split; [ apply scbs_gate; exact Hgate | ].
    rewrite app_nil_r. repeat split. constructor. }
  destruct (scbs_run_entry zero_to_one_exclusive connect_succeeds rt backends cm
              sescmd e type w Hgate)
    as (mcalls & scalls & w' & Hrun & _ & Hlog & _ & _ & Hm & _ & _ & _ & Hnone & _).
  fold master in Hm, Hnone.
  assert (Hs : scalls = []).
  { apply Hnone.
    pose proof (connected_slaves_le_length (heap w) backends master) as Hc.
    rewrite get_slave_counts_connected by lia. exact Hfull. }
  subst scalls. rewrite app_nil_r in Hlog.
  eexists _, w', mcalls. split; [ exact Hrun | ]. split; [ exact Hlog | ].
  split; [ | simpl; apply bump_0 ].
  eapply Forall_impl; [ exact Hm | ]. simpl. intros c (_ & Hc & _). exact Hc.
Qed.

(** ** Why the top-up loop stops *)

(** The loop under a selection function that, as long as an invariant of
    the candidates and the heap holds, never returns [end()] on a
    non-empty vector: it stops only when the quota is reached or every
    candidate has been passed to [connect]. *)
Lemma topup_loop_exhausts select sescmd_list max_nslaves
    (I : PRWBackends -> Heap -> Prop) :
  select_frame select ->
  (forall l w i w', I l (heap w) -> l <> [] ->
                    select l w = Ok (i, w') -> i <> length l) ->
  (forall l h i b (ok : bool), I l h -> l !! i = Some b ->
     I (delete i l) (if ok then heap_set h b (set_in_use (h b)) else h)) ->
  forall fuel slaves_connected candidates expected_responses w,
    (length candidates <= fuel)%nat ->
    I candidates (heap w) ->
    exists calls e' w',
      topup_loop connect_succeeds fuel select sescmd_list max_nslaves
        slaves_connected candidates expected_responses w
      = Ok (e', w')
      /\ connect_log w' = connect_log w ++ calls
      /\ (INT_MIN <= slaves_connected -> max_nslaves <= INT_MAX ->
          length calls = length candidates
          \/ max_nslaves <= slaves_connected + Z.of_nat (successes calls)).
Proof.
  intros Hsel Hvalid Hkeep.
  assert (Hstop : forall fuel sc cands e w,
    (sc <? max_nslaves) && negb (Nat.eqb (length cands) 0) = false ->
    exists calls e' w',
      topup_loop connect_succeeds fuel select sescmd_list max_nslaves sc cands e w
      = Ok (e', w')
      /\ connect_log w' = connect_log w ++ calls
      /\ (INT_MIN <= sc -> max_nslaves <= INT_MAX ->
          length calls = length cands
          \/ max_nslaves <= sc + Z.of_nat (successes calls))).
  { intros fuel sc cands e w Hc. exists [], e, w.
    rewrite topup_loop_stop by exact Hc. rewrite app_nil_r.
    split; [ reflexivity | ]. split; [ reflexivity | ]. intros _ _.
    apply andb_false_iff in Hc as [Hc | Hc].
    - right. apply Z.ltb_ge in Hc. unfold successes. simpl. lia.
    - left. apply negb_false_iff, Nat.eqb_eq in Hc. simpl. lia. }
  induction fuel as [ | fuel IH ]; intros sc cands e w Hlen Hinv.
  - apply Hstop. destruct cands; [ simpl; apply andb_false_r | simpl in Hlen; lia ].
  - destruct ((sc <? max_nslaves) && negb (Nat.eqb (length cands) 0)) eqn:Hc;
      [ | apply Hstop; exact Hc ].
    apply andb_true_iff in Hc as Hc'. destruct Hc' as [Hlt Hne].
    apply Z.ltb_lt in Hlt. apply negb_true_iff, Nat.eqb_neq in Hne.
    rewrite topup_loop_unfold, Hc.
    destruct (Hsel cands w) as (ite & w1 & Hs & Hite & Hheap1 & Hlog1).
    rewrite Hs.
    assert (Hnot_end : ite <> length cands).
    { eapply Hvalid; [ exact Hinv | | exact Hs ]. intros ->. simpl in Hne. lia. }
    apply Nat.eqb_neq in Hnot_end as Hneq. rewrite Hneq.
    assert (Hin : (ite < length cands)%nat) by lia.
    destruct (lookup_lt_is_Some_2 _ _ Hin) as [b Hb]. rewrite Hb. cbv zeta.
    set (ok := connect_succeeds w1 b).
    destruct (IH (if ok then int_add sc 1 else sc) (delete ite cands)
                (if ok && sescmd_nonempty sescmd_list
                 then (fun e => int_add e 1) <$> e else e)
                (after_connect connect_succeeds w1 b sescmd_list true))
      as (calls & e' & w' & Hrun & Hlog & Hexh).
    { rewrite length_delete by (eexists; exact Hb). lia. }
    { rewrite after_connect_heap. unfold replay_step. simpl. fold ok.
      rewrite Hheap1. apply Hkeep; assumption. }
    exists ({| cc_backend := b; cc_sescmd := sescmd_list;
               cc_slave := true; cc_ok := ok |} :: calls), e', w'.
    split; [ exact Hrun | ]. split.
    { rewrite Hlog. simpl. rewrite Hlog1, <- app_assoc. reflexivity. }
    intros Hmin Hmax. rewrite successes_cons. simpl cc_ok. simpl length.
    assert (Hsc : (if ok then int_add sc 1 else sc) = if ok then sc + 1 else sc).
    { destruct ok; [ | reflexivity ]. apply int_add_no_overflow.
      unfold INT_MIN, INT_MAX in *. lia. }
    rewrite Hsc in Hexh.
    rewrite length_delete in Hexh by (eexists; exact Hb).
    destruct ok.
    + destruct (Hexh ltac:(lia) Hmax) as [H | H]; [ left | right ]; lia.
    + destruct (Hexh Hmin Hmax) as [H | H]; [ left | right ]; lia.
Qed.

Lemma delete_not_elem (l : list BackendId) i b :
  NoDup l -> l !! i = Some b -> b ∉ delete i l.
Proof.
  intros Hnd Hb. rewrite (delete_Permutation l i b Hb) in Hnd.
  apply NoDup_cons in Hnd as [Hfresh _]. exact Hfresh.
Qed.

(** X11: under a policy other than the adaptive one, in a vector of
    distinct backends, when every slave candidate has a compared score
    below the initial minimum of [best_score], the top-up loop stops only
    for one of two reasons: every candidate has been passed to [connect],
    or the backends that are in use, can connect and are valid slaves
    have reached [max_slave_count()]. *)
Theorem topup_fills_quota_or_tries_all :
  forall rt backends current_master sescmd_list expected_responses type w
         server_score,
    let master := get_root_master (heap w) backends in
    policy_score (slave_selection_criteria (config rt)) = Some server_score ->
    NoDup backends ->
    Z.of_nat (length backends) <= INT_MAX ->
    max_slave_count rt <= INT_MAX ->
    master_gate rt (heap w) backends = false ->
    (forall b, b ∈ slave_candidates (heap w) backends master ->
               ltb (compared_score (heap w) server_score b) DBL_MAX = true) ->
    exists out w' calls,
      select_connect_backend_servers zero_to_one_exclusive connect_succeeds rt
        backends current_master sescmd_list expected_responses type w
      = Ok (out, w')
      /\ connect_log w' = connect_log w ++ calls
      /\ (length (List.filter cc_slave calls)
          = length (slave_candidates (heap w) backends master)
          \/ max_slave_count rt
             <= Z.of_nat (connected_slaves (heap w') backends master)).
Proof.
  intros rt backends cm sescmd e type w score master Hp Hnd Hlen Hmax Hgate Hscore.
  destruct (scbs_run_full rt backends cm sescmd e type w Hgate)
    as (scalls & w' & Hrun & Hheap & Hlog & Hall & Hsub & Hag).
  fold master in Hrun, Hheap, Hlog, Hsub, Hag.
  pose proof (scbs_phases rt backends cm sescmd e type w Hgate) as Hph.
  cbv zeta in Hph. fold master in Hph.
  destruct (after_master_world type master w) as (Hheap1 & Hlog1 & _).
  set (w1 := after_master type master w) in *.
  set (I := fun (l : PRWBackends) (h : Heap) =>
              NoDup l /\ forall b, b ∈ l ->
                ltb (compared_score h score b) DBL_MAX = true).
  assert (Hcands : slave_candidates (heap w1) backends master
                   = slave_candidates (heap w) backends master).
  { rewrite Hheap1. apply slave_candidates_agree. exact Hag. }
  destruct (topup_loop_exhausts
              (backend_select_fct zero_to_one_exclusive (config rt))
              sescmd (max_slave_count rt) I
              (get_backend_select_function_frame _ _))
    with (fuel := length (slave_candidates (heap w1) backends master))
         (slaves_connected := (get_slave_counts (heap w1) backends master).2)
         (candidates := slave_candidates (heap w1) backends master)
         (expected_responses := e) (w := w1)
    as (calls & e' & w'' & Hrun2 & Hlog2 & Hexh).
  { intros l w0 i w0' [_ Hbelow] Hne Hs Hend.
    unfold backend_select_fct in Hs.
    rewrite (non_adaptive_is_best_score _ _ score l w0 Hp) in Hs.
    injection Hs as <- _. apply best_score_none_iff in Hend.
    destruct l as [ | b0 l ]; [ congruence | ].
    specialize (Hend b0 (list_elem_of_here _ _)).
    rewrite (Hbelow b0 (list_elem_of_here _ _)) in Hend. discriminate. }
  { intros l h i b ok [Hndl Hbelow] Hb. split.
    - eapply sublist_NoDup; [ exact Hndl | apply sublist_delete ].
    - intros x Hx.
      assert (Hxb : x <> b).
      { intros ->. exact (delete_not_elem l i b Hndl Hb Hx). }
      apply list_elem_of_delete_inv in Hx. specialize (Hbelow x Hx).
      destruct ok; [ | exact Hbelow ].
      unfold compared_score, heap_set in *.
      destruct (Nat.eqb_spec x b); [ congruence | exact Hbelow ]. }
  { reflexivity. }
  { split.
    - rewrite Hcands. apply slave_candidates_NoDup. exact Hnd.
    - intros b Hb. rewrite Hcands in Hb.
      assert (Hsame : heap w1 b = heap w b).
      { rewrite Hheap1.
        apply (slave_candidates_elem zero_to_one_exclusive) in Hb
          as (Hin & _ & _ & Hv).
        destruct (Hag b Hin) as [_ Heq]. apply Heq. exact Hv. }
      unfold compared_score. rewrite Hsame. apply Hscore.
      exact Hb. }
  rewrite Hrun2 in Hph. rewrite Hrun in Hph. injection Hph as _ Hw.
  subst w''. rewrite Hlog2, Hlog1, <- app_assoc in Hlog.
  apply app_inv_head in Hlog. apply app_inv_head in Hlog. subst calls.
  eexists _, w', _. split; [ exact Hrun | ].
  split; [ rewrite Hlog2, Hlog1, <- app_assoc; reflexivity | ].
  rewrite filter_slave_calls.
  2: { eapply Forall_impl; [ apply master_calls_master | ]. simpl.
       intros c [_ Hc]. exact Hc. }
  2: { eapply Forall_impl; [ exact Hall | ]. simpl. intros c [Hc _]. exact Hc. }
  pose proof (connected_slaves_le_length (heap w) backends master) as Hcl.
  assert (Hsc : (get_slave_counts (heap w1) backends master).2
                = Z.of_nat (connected_slaves (heap w) backends master)).
  { rewrite Hheap1, (get_slave_counts_agree _ _ _ _ Hag).
    apply get_slave_counts_connected. lia. }
  rewrite Hsc, Hcands in Hexh.
  destruct (Hexh ltac:(unfold INT_MIN; lia) Hmax) as [Hall_tried | Hquota];
    [ left; exact Hall_tried | right ].
  assert (Hcount : connected_slaves (heap w') backends master
                   = (connected_slaves (heap w) backends master
                      + successes scalls)%nat).
  { rewrite Hheap. unfold replay. rewrite fold_left_app.
    fold (replay (master_calls type master w) (heap w)).
    fold (replay scalls (replay (master_calls type master w) (heap w))).
    rewrite (connected_slaves_replay zero_to_one_exclusive backends master Hnd).
    - rewrite (connected_slaves_agree _ _ _ _ Hag). reflexivity.
    - eapply submseteq_NoDup_l; [ exact Hsub | ].
      apply slave_candidates_NoDup. exact Hnd.
    - apply Forall_forall. intros c Hc.
      rewrite (slave_candidates_agree _ _ _ _ Hag).
      eapply elem_of_submseteq; [ | exact Hsub ].
      apply list_elem_of_In. apply in_map. apply list_elem_of_In. exact Hc. }
  rewrite Hcount. lia.
Qed.

(** ** The random engine *)

(** The number of values one call of a selection function draws. *)
Definition draws_per_selection (sc : select_criteria_t) : nat :=
  match sc with
  | ADAPTIVE_ROUTING => 1
  | _ => 0
  end.

Lemma get_backend_select_function_draws z sc l w i w' :
  get_backend_select_function z sc l w = Ok (i, w') ->
  draws w' = (draws w + draws_per_selection sc)%nat.
Proof.
  destruct sc; simpl; unfold bind, get_heap, ret; simpl;
    intros [= _ <-]; simpl; lia.
Qed.

(** The rounds of the loop: each one calls the selection function once,
    and each but possibly the last calls [connect] once. *)
Lemma topup_loop_rounds select sescmd_list max_nslaves k :
  select_frame select ->
  (forall l w i w', select l w = Ok (i, w') -> draws w' = (draws w + k)%nat) ->
  forall fuel slaves_connected candidates expected_responses w,
    (length candidates <= fuel)%nat ->
    exists calls rounds e' w',
      topup_loop connect_succeeds fuel select sescmd_list max_nslaves
        slaves_connected candidates expected_responses w
      = Ok (e', w')
      /\ connect_log w' = connect_log w ++ calls
      /\ Forall (fun c => cc_slave c = true) calls
      /\ draws w' = (draws w + k * rounds)%nat
      /\ (length calls <= rounds <= S (length calls))%nat.
Proof.
  intros Hsel Hdraw.
  assert (Hstop : forall fuel sc cands e w,
    (sc <? max_nslaves) && negb (Nat.eqb (length cands) 0) = false ->
    exists calls rounds e' w',
      topup_loop connect_succeeds fuel select sescmd_list max_nslaves sc cands e w
      = Ok (e', w')
      /\ connect_log w' = connect_log w ++ calls
      /\ Forall (fun c => cc_slave c = true) calls
      /\ draws w' = (draws w + k * rounds)%nat
      /\ (length calls <= rounds <= S (length calls))%nat).
  { intros fuel sc cands e w Hc. exists [], 0%nat, e, w.
    rewrite topup_loop_stop by exact Hc. rewrite app_nil_r.
    repeat split; auto; simpl; lia. }
  induction fuel as [ | fuel IH ]; intros sc cands e w Hlen.
  - apply Hstop. destruct cands; [ simpl; apply andb_false_r | simpl in Hlen; lia ].
  - destruct ((sc <? max_nslaves) && negb (Nat.eqb (length cands) 0)) eqn:Hc;
      [ | apply Hstop; exact Hc ].
    rewrite topup_loop_unfold, Hc.
    destruct (Hsel cands w) as (ite & w1 & Hs & Hite & Hheap1 & Hlog1).
    rewrite Hs. pose proof (Hdraw _ _ _ _ Hs) as Hd1.
    destruct (Nat.eqb_spec ite (length cands)) as [ -> | Hnot_end ].
    { exists [], 1%nat, e, w1. rewrite app_nil_r.
      repeat split; auto; simpl; lia. }
    assert (Hin : (ite < length cands)%nat) by lia.
    destruct (lookup_lt_is_Some_2 _ _ Hin) as [b Hb]. rewrite Hb. cbv zeta.
    set (ok := connect_succeeds w1 b).
    destruct (IH (if ok then int_add sc 1 else sc) (delete ite cands)
                (if ok && sescmd_nonempty sescmd_list
                 then (fun e => int_add e 1) <$> e else e)
                (after_connect connect_succeeds w1 b sescmd_list true))
      as (calls & rounds & e' & w' & Hrun & Hlog & Hall & Hd & Hr).
    { rewrite length_delete by (eexists; exact Hb). lia. }
    exists ({| cc_backend := b; cc_sescmd := sescmd_list;
               cc_slave := true; cc_ok := ok |} :: calls), (S rounds), e', w'.
    split; [ exact Hrun | ]. split.
    { rewrite Hlog. simpl. rewrite Hlog1, <- app_assoc. reflexivity. }
    split; [ constructor; [ reflexivity | exact Hall ] | ].
    split; [ rewrite Hd; simpl; lia | simpl; lia ].
Qed.

(** X12: the call draws from the worker's random engine only under the
    adaptive policy, and then one value for each round of the top-up
    loop: as many as the connects made for slave candidates, or one more
    when the last round ended without a connect.  Under the four other
    policies, and whenever the gate stops the call, the engine is left as
    it was. *)
Theorem random_draws_per_round :
  forall rt backends current_master sescmd_list expected_responses type w,
  exists out w' calls rounds,
    select_connect_backend_servers zero_to_one_exclusive connect_succeeds rt
      backends current_master sescmd_list expected_responses type w
    = Ok (out, w')
    /\ connect_log w' = connect_log w ++ calls
    /\ (length (List.filter cc_slave calls) <= rounds
        <= S (length (List.filter cc_slave calls)))%nat
    /\ draws w'
       = (draws w
          + draws_per_selection (slave_selection_criteria (config rt)) * rounds)%nat
    /\ (rval out = false -> draws w' = draws w).
Proof.
  intros rt backends cm sescmd e type w.
  destruct (master_gate rt (heap w) backends) eqn:Hgate.
  { eexists _, w, [], 0%nat. split; [ apply scbs_gate; exact Hgate | ].
    rewrite app_nil_r. simpl. repeat split; auto; lia. }
  rewrite (scbs_phases rt backends cm sescmd e type w Hgate).
  set (master := get_root_master (heap w) backends).
  destruct (after_master_world type master w) as (_ & Hlog1 & Hdraws1).
  destruct (topup_loop_rounds
              (backend_select_fct zero_to_one_exclusive (config rt))
              sescmd (max_slave_count rt)
              (draws_per_selection (slave_selection_criteria (config rt)))
              (get_backend_select_function_frame _ _)
              (get_backend_select_function_draws _ _)
              (length (slave_candidates (heap (after_master type master w))
                         backends master))
              (get_slave_counts (heap (after_master type master w)) backends master).2
              (slave_candidates (heap (after_master type master w)) backends master)
              e (after_master type master w) (Nat.le_refl _))
    as (calls & rounds & e' & w' & Hrun & Hlog & Hall & Hd & Hr).
  rewrite Hrun.
  eexists _, w', (master_calls type master w ++ calls), rounds.
  split; [ reflexivity | ].
  split; [ rewrite Hlog, Hlog1, <- app_assoc; reflexivity | ].
  rewrite filter_slave_calls; [ | | exact Hall ].
  - split; [ exact Hr | ]. split; [ rewrite Hd, Hdraws1; reflexivity | ].
    simpl. discriminate.
  - eapply Forall_impl; [ apply master_calls_master | ]. simpl.
    intros c [_ Hc]. exact Hc.
Qed.

(** ** The backends after the call *)

Lemma replay_step_in_use h c b :
  in_use (h b) = true -> in_use (replay_step h c b) = true.
Proof.
  unfold replay_step, heap_set. intros H. destruct (cc_ok c); [ | exact H ].
  destruct (Nat.eqb b (cc_backend c)); [ reflexivity | exact H ].
Qed.

Lemma replay_in_use calls :
  forall h b, in_use (h b) = true -> in_use (replay calls h b) = true.
Proof.
  induction calls as [ | c calls IH ]; intros h b H; simpl; [ exact H | ].
  apply IH. apply replay_step_in_use. exact H.
Qed.

Lemma replay_unchanged calls :
  forall h b,
    Forall (fun c => cc_ok c = true -> cc_backend c <> b) calls ->
    replay calls h b = h b.
Proof.
  induction calls as [ | c calls IH ]; intros h b Hall; simpl; [ reflexivity | ].
  apply Forall_cons in Hall as [Hc Hall].
  unfold replay in *. rewrite IH by exact Hall.
  unfold replay_step, heap_set. destruct (cc_ok c); [ | reflexivity ].
  destruct (Nat.eqb_spec b (cc_backend c)) as [ -> | ]; [ | reflexivity ].
  destruct (Hc eq_refl eq_refl).
Qed.

Lemma replay_success calls :
  forall h c,
    c ∈ calls -> cc_ok c = true -> in_use (replay calls h (cc_backend c)) = true.
Proof.
  induction calls as [ | c0 calls IH ]; intros h c Hc Hok.
  - apply elem_of_nil in Hc. contradiction.
  - simpl. apply elem_of_cons in Hc as [ -> | Hc ]; [ | apply IH; assumption ].
    apply replay_in_use. unfold replay_step, heap_set.
    rewrite Hok, Nat.eqb_refl. reflexivity.
Qed.

(** X13: with [connect] as modelled (a success puts the backend in use
    and moves its connection counter, a failure changes nothing), the
    call changes a backend only through a successful connect on it:
    every other backend, in the vector or not, is as it was; a backend
    on which a connect succeeded is in use; no backend that was in use
    stops being so, and no backend changes its role, its
    [can_connect] or its [has_session_commands].  Every connect is on a
    backend of the vector. *)
Theorem backends_change_by_connect_only :
  forall rt backends current_master sescmd_list expected_responses type w,
  exists out w' calls,
    select_connect_backend_servers zero_to_one_exclusive connect_succeeds rt
      backends current_master sescmd_list expected_responses type w
    = Ok (out, w')
    /\ connect_log w' = connect_log w ++ calls
    /\ heap w' = replay calls (heap w)
    /\ Forall (fun c => cc_backend c ∈ backends) calls
    /\ (forall b,
          same_roles (heap w' b) (heap w b)
          /\ (in_use (heap w b) = true -> in_use (heap w' b) = true)
          /\ (Forall (fun c => cc_ok c = true -> cc_backend c <> b) calls ->
              heap w' b = heap w b))
    /\ (forall c, c ∈ calls -> cc_ok c = true ->
          in_use (heap w' (cc_backend c)) = true).
Proof.
  intros rt backends cm sescmd e type w.
  destruct (master_gate rt (heap w) backends) eqn:Hgate.
  { eexists _, w, []. split; [ apply scbs_gate; exact Hgate | ].
    rewrite app_nil_r. simpl. repeat split; auto.
    intros c Hc. apply elem_of_nil in Hc. contradiction. }
  destruct (scbs_run_full rt backends cm sescmd e type w Hgate)
    as (scalls & w' & Hrun & Hheap & Hlog & Hall & Hsub & _).
  eexists _, w', _. split; [ exact Hrun | ]. split; [ exact Hlog | ].
  split; [ exact Hheap | ]. split.
  { apply Forall_app. split.
    - eapply Forall_impl; [ apply master_calls_master | ]. simpl.
      intros c [Hc _]. symmetry in Hc.
      apply get_root_master_some in Hc as (i & Hi & _).
      eapply list_elem_of_lookup_2. exact Hi.
    - apply Forall_forall. intros c Hc.
      assert (Hb : cc_backend c
                   ∈ slave_candidates (heap w) backends
                       (get_root_master (heap w) backends)).
      { eapply elem_of_submseteq; [ | exact Hsub ].
        apply list_elem_of_In. apply in_map. apply list_elem_of_In. exact Hc. }
      apply (slave_candidates_elem zero_to_one_exclusive) in Hb as [Hb _].
      exact Hb. }
  rewrite Hheap. split.
  - intros b. split; [ apply replay_roles | ].
    split; [ apply replay_in_use | apply replay_unchanged ].
  - intros c Hc Hok. apply replay_success; assumption.
Qed.

End BringupFurther.

(* ================================================================== *)
(** * Further scenarios *)
(* ================================================================== *)

(** X8, witness: the usable master at address 0 is connected first. *)
Lemma master_connected_once_witness :
  exists out w' scalls,
    select_connect_backend_servers draw_zero all_but_one
      (example_router RW_FAIL_INSTANTLY 2) [0; 1; 2]%nat None None None ALL
      master_world
    = Ok (out, w')
    /\ connect_log w'
       = connect_log master_world ++ master_call all_but_one master_world 0%nat :: scalls
    /\ out_master out = (if all_but_one master_world 0%nat then Some 0%nat else None).
Proof.
  destruct (master_connected_once draw_zero all_but_one
              (example_router RW_FAIL_INSTANTLY 2) [0; 1; 2]%nat None None None ALL
              master_world)
    as (out & w' & scalls & Hrun & _ & Hall & _).
  exists out, w', scalls. split; [ exact Hrun | ].
  apply (Hall 0%nat); reflexivity.
Defined.

(** X10, witness: the first scenario with a quota of 1, which the slave
    in use already fills. *)
Lemma full_quota_witness :
  exists out w' calls,
    select_connect_backend_servers draw_zero all_but_one
      (example_router RW_FAIL_ON_WRITE 1) [0; 1; 2]%nat None (Some [7%nat])
      (Some 0) SLAVE scenario_world
    = Ok (out, w')
    /\ connect_log w' = connect_log scenario_world ++ calls
    /\ Forall (fun c => cc_slave c = false) calls
    /\ out_expected out = Some 0.
Proof.
  apply (full_quota_connects_no_slave draw_zero all_but_one
           (example_router RW_FAIL_ON_WRITE 1) [0; 1; 2]%nat None (Some [7%nat])
           (Some 0) SLAVE scenario_world).
  - vm_compute. discriminate.
  - vm_compute. discriminate.
Defined.

(** X11, witness: the fifth scenario; the loop ends with the quota of 2
    reached or both candidates tried. *)
Lemma topup_fills_quota_witness :
  exists out w' calls,
    select_connect_backend_servers draw_zero all_but_one
      (example_router RW_FAIL_ON_WRITE 2) [0; 1; 2]%nat None (Some [7%nat])
      (Some 0) ALL scenario_world
    = Ok (out, w')
    /\ connect_log w' = connect_log scenario_world ++ calls
    /\ (length (List.filter cc_slave calls)
        = length (slave_candidates (heap scenario_world) [0; 1; 2]%nat
                    (get_root_master (heap scenario_world) [0; 1; 2]%nat))
        \/ max_slave_count (example_router RW_FAIL_ON_WRITE 2)
           <= Z.of_nat (connected_slaves (heap w') [0; 1; 2]%nat
                          (get_root_master (heap scenario_world) [0; 1; 2]%nat))).
Proof.
  apply (topup_fills_quota_or_tries_all draw_zero all_but_one
           (example_router RW_FAIL_ON_WRITE 2) [0; 1; 2]%nat None (Some [7%nat])
           (Some 0) ALL scenario_world score_router_conn).
  - reflexivity.
  - exact distinct_three.
  - vm_compute. discriminate.
  - vm_compute. discriminate.
  - reflexivity.
  - intros b Hb.
    change (b ∈ [0; 1]%nat) in Hb.
    apply elem_of_cons in Hb as [ -> | Hb ]; [ vm_compute; reflexivity | ].
    apply list_elem_of_singleton in Hb. subst b. vm_compute. reflexivity.
Defined.
